(** * Shallow embedding of the request path engine of api-gateway-go

    Modelled sources:
    - internal/domain/model/route.go       (Route, MatchRoutePath, HasRequiredHeaders)
    - internal/logging/logger.go           (route.Service: catalogue read-through and mutations)
    - internal/adapter/database/route_repository.go (the store)
    - pkg/cache/memory.go, unnamed/part_006 (Cache.Get / Set / Delete)
    - pkg/telemetry/tracing.go             (resilience.CircuitBreaker)
    - pkg/ratelimit/redis_limiter.go       (RedisLimiter.Allow and its Lua script)
    - internal/adapter/proxy/proxy.go      (ProxyRequest, doProxy and its Director)
    - Go standard library pieces these rely on (sync.RWMutex, float64,
      Duration.Seconds, textproto canonical keys, net.SplitHostPort,
      httputil.ReverseProxy) and the OpenTelemetry propagators
    - unnamed/part_018                     (Handler.ServeAPI) *)

From Stdlib Require Import ZArith Lia.
From Stdlib Require Import Ascii.
From Stdlib Require String.
From stdpp Require Import base gmap strings list.

Open Scope Z_scope.

(* ===================================================================== *)
(** ** Go [strings] helpers *)
(* ===================================================================== *)

Module GoStrings.

(** [strings.HasPrefix s p] *)
Definition HasPrefix (s p : string) : bool := String.prefix p s.

(** [strings.HasSuffix s suf] *)
Definition HasSuffix (s suf : string) : bool :=
  let n := String.length s in
  let m := String.length suf in
  (Nat.leb m n && String.eqb (String.substring (n - m) m s) suf)%bool.

(** [strings.TrimSuffix s suf] *)
Definition TrimSuffix (s suf : string) : string :=
  if HasSuffix s suf
  then String.substring 0 (String.length s - String.length suf) s
  else s.

(** [strings.Contains s c] for a one-character needle. *)
Fixpoint ContainsChar (s : string) (c : Ascii.ascii) : bool :=
  match s with
  | EmptyString => false
  | String ch rest => (Ascii.eqb ch c || ContainsChar rest c)%bool
  end.

(** [strings.Split s "/"]: n separators give n+1 parts; [Split "" "/" = [""]]. *)
Fixpoint SplitSlash (s : string) : list string :=
  match s with
  | EmptyString => [EmptyString]
  | String ch rest =>
      let parts := SplitSlash rest in
      if Ascii.eqb ch "/"%char then EmptyString :: parts
      else match parts with
           | p :: ps => String ch p :: ps
           | [] => [String ch EmptyString]
           end
  end.

End GoStrings.

Import GoStrings.

(* ===================================================================== *)
(** ** Route descriptor and path matching (internal/domain/model/route.go) *)
(* ===================================================================== *)

(** The fields of [model.Route] the request path uses; counters and
    timestamps are not read by any modelled operation. *)
Record Route := mkRoute {
  Path : string;
  ServiceURL : string;
  Methods : list string;
  Headers : list string;
  IsActive : bool;
  RequiredHeaders : list string
}.

(** [Route.IsMethodAllowed] *)
Definition IsMethodAllowed (r : Route) (method : string) : bool :=
  existsb (fun m => String.eqb m method) (Methods r).

(** [Route.HasRequiredHeaders]: every required name is a key of [headers]. *)
Definition HasRequiredHeaders (r : Route) (headers : gmap string string) : bool :=
  forallb (fun required => bool_decide (is_Some (headers !! required)))
          (RequiredHeaders r).

(** The [for i := 0; i < len(regParts); i++] loop of [MatchRoutePath]
    (the lengths are known equal when it runs). *)
Fixpoint match_parts (regParts reqParts : list string) : bool :=
  match regParts, reqParts with
  | rp :: rs, qp :: qs =>
      if HasPrefix rp ":" then match_parts rs qs
      else (String.eqb rp qp && match_parts rs qs)%bool
  | _, _ => true
  end.

(** [MatchRoutePath registeredPath requestPath] *)
Definition MatchRoutePath (registeredPath requestPath : string) : bool :=
  if String.eqb registeredPath requestPath then true
  else if HasSuffix registeredPath "/*" then
    HasPrefix requestPath (TrimSuffix registeredPath "/*")
  else if ContainsChar registeredPath ":"%char then
    let regParts := SplitSlash registeredPath in
    let reqParts := SplitSlash requestPath in
    if negb (Nat.eqb (length regParts) (length reqParts)) then false
    else match_parts regParts reqParts
  else false.

(* ===================================================================== *)
(** ** Cache, store and the catalogue service *)
(* ===================================================================== *)

Inductive Err :=
  | ErrRouteNotFound    (* repository.ErrRouteNotFound *)
  | ErrCache            (* an error returned by the cache *)
  | ErrStore            (* a database error *)
  | ErrDuplicate.       (* unique constraint on the path column *)

Inductive result (A : Type) :=
  | Ok (a : A)
  | Error (e : Err).
Arguments Ok {A} a.
Arguments Error {A} e.

(** What a cache key holds. [CBlob] is a stored value that does not decode
    into the destination the reader passes. *)
Inductive CacheEntry :=
  | CRoute (r : Route)
  | CRoutes (rs : list Route)
  | CBlob.

(** A cache backend: its entries, and whether the shared store is
    reachable (the in-process cache always is). *)
Record Cache := mkCache {
  entries : gmap string CacheEntry;
  reachable : bool
}.

(** The outcome of [Cache.Get]; the service checks [err] before [found],
    so every error outcome is one case. *)
Inductive Lookup (A : Type) :=
  | LHit (a : A)
  | LMiss
  | LErr.
Arguments LHit {A} a.
Arguments LMiss {A}.
Arguments LErr {A}.

(** [Cache.Get(ctx, key, &route)] with a [model.Route] destination. *)
Definition cache_get_route (c : Cache) (k : string) : Lookup Route :=
  if negb (reachable c) then LErr
  else match entries c !! k with
       | None => LMiss
       | Some (CRoute r) => LHit r
       | Some _ => LErr
       end.

(** [Cache.Get(ctx, key, &routes)] with a [[]*model.Route] destination. *)
Definition cache_get_routes (c : Cache) (k : string) : Lookup (list Route) :=
  if negb (reachable c) then LErr
  else match entries c !! k with
       | None => LMiss
       | Some (CRoutes rs) => LHit rs
       | Some _ => LErr
       end.

(** [Cache.Set]; the boolean is [err != nil]. *)
Definition cache_set (c : Cache) (k : string) (v : CacheEntry) : Cache * bool :=
  if reachable c then (mkCache (<[k:=v]> (entries c)) true, false)
  else (c, true).

(** [Cache.Delete]; the boolean is [err != nil]. *)
Definition cache_delete (c : Cache) (k : string) : Cache * bool :=
  if reachable c then (mkCache (delete k (entries c)) true, false)
  else (c, true).

(** The route table, rows in the order the database returns them
    ([Find] without [ORDER BY]). *)
Record Store := mkStore {
  rows : list Route;
  db_up : bool
}.

(** [RouteRepository.GetRoutes]: [WHERE is_active = true]. *)
Definition repo_GetRoutes (st : Store) : result (list Route) :=
  if db_up st then Ok (filter (fun r => IsActive r = true) (rows st))
  else Error ErrStore.

(** [RouteRepository.AddRoute]: [Create]; the path column is unique.
    [IsActive] carries [gorm:"default:true"], and GORM leaves a zero-valued
    field with a default out of the INSERT, so the row is stored active
    whatever the descriptor says. Where the new row shows up in the scan
    order of later queries is the database's choice: [pos] is that
    position. *)
Definition repo_AddRoute (st : Store) (r : Route) (pos : nat) : result Store :=
  if negb (db_up st) then Error ErrStore
  else if existsb (fun x => String.eqb (Path x) (Path r)) (rows st) then Error ErrDuplicate
  else
    let stored := mkRoute (Path r) (ServiceURL r) (Methods r) (Headers r) true (RequiredHeaders r) in
    Ok (mkStore (take pos (rows st) ++ stored :: drop pos (rows st)) true).

(** [RouteRepository.UpdateRoute]: [WHERE path = ?] then [Updates] with
    the entity struct, which writes only its non-zero fields: an empty
    [ServiceURL] and a false [IsActive] leave the stored values; the JSON
    columns are never empty ([null] for a nil list) and are always
    written. No matching row is not an error. *)
Definition repo_UpdateRoute (st : Store) (r : Route) : result Store :=
  if negb (db_up st) then Error ErrStore
  else Ok (mkStore (map (fun x =>
             if String.eqb (Path x) (Path r) then
               mkRoute (Path x)
                       (if String.eqb (ServiceURL r) EmptyString then ServiceURL x else ServiceURL r)
                       (Methods r) (Headers r) (IsActive x || IsActive r)%bool (RequiredHeaders r)
             else x) (rows st)) true).

(** [RouteRepository.DeleteRoute]: [RowsAffected == 0] is [ErrRouteNotFound]. *)
Definition repo_DeleteRoute (st : Store) (path : string) : result Store :=
  if negb (db_up st) then Error ErrStore
  else if existsb (fun x => String.eqb (Path x) path) (rows st)
  then Ok (mkStore (filter (fun x => negb (String.eqb (Path x) path)) (rows st)) true)
  else Error ErrRouteNotFound.

(** [route.Service]: the store and the cache it reads through. *)
Record Service := mkService {
  repo : Store;
  cache : Cache
}.

Definition route_key (path : string) : string := String.append "route:" path.

(** [Service.GetRoutes] *)
Definition GetRoutes (s : Service) : Service * result (list Route) :=
  match cache_get_routes (cache s) "routes" with
  | LErr => (s, Error ErrCache)
  | LHit rs => (s, Ok rs)
  | LMiss =>
      match repo_GetRoutes (repo s) with
      | Error e => (s, Error e)
      | Ok rs =>
          let '(c', _) := cache_set (cache s) "routes" (CRoutes rs) in
          (mkService (repo s) c', Ok rs)
      end
  end.

(** The [for _, r := range routes] loop of [Service.GetRouteByPath]. *)
Fixpoint first_match (routes : list Route) (path : string) : option Route :=
  match routes with
  | [] => None
  | r :: rs => if MatchRoutePath (Path r) path then Some r else first_match rs path
  end.

(** [Service.GetRouteByPath] *)
Definition GetRouteByPath (s : Service) (path : string) : Service * result Route :=
  let cacheKey := route_key path in
  match cache_get_route (cache s) cacheKey with
  | LHit r => (s, Ok r)
  | _ =>
      match repo_GetRoutes (repo s) with
      | Error e => (s, Error e)
      | Ok routes =>
          match first_match routes path with
          | Some r =>
              let '(c', _) := cache_set (cache s) cacheKey (CRoute r) in
              (mkService (repo s) c', Ok r)
          | None => (s, Error ErrRouteNotFound)
          end
      end
  end.

(** [Service.AddRoute] *)
Definition AddRoute (s : Service) (r : Route) (pos : nat) : Service * result unit :=
  match repo_AddRoute (repo s) r pos with
  | Error e => (s, Error e)
  | Ok st' =>
      let '(c', _) := cache_delete (cache s) "routes" in
      (mkService st' c', Ok tt)
  end.

(** [Service.UpdateRoute] *)
Definition UpdateRoute (s : Service) (r : Route) : Service * result unit :=
  match repo_UpdateRoute (repo s) r with
  | Error e => (s, Error e)
  | Ok st' =>
      let '(c1, _) := cache_delete (cache s) (route_key (Path r)) in
      let '(c2, _) := cache_delete c1 "routes" in
      (mkService st' c2, Ok tt)
  end.

(** [Service.DeleteRoute] *)
Definition DeleteRoute (s : Service) (path : string) : Service * result unit :=
  match repo_DeleteRoute (repo s) path with
  | Error e => (s, Error e)
  | Ok st' =>
      let '(c1, _) := cache_delete (cache s) (route_key path) in
      let '(c2, _) := cache_delete c1 "routes" in
      (mkService st' c2, Ok tt)
  end.


(** [Service.ClearCache]: drop "routes", then route:<path> for every active
    stored route; errors on the per-route deletes are only logged. *)
Definition ClearCache (s : Service) : Service * result unit :=
  let '(c1, e1) := cache_delete (cache s) "routes" in
  if e1 then (mkService (repo s) c1, Error ErrCache)
  else match repo_GetRoutes (repo s) with
       | Error e => (mkService (repo s) c1, Error e)
       | Ok routes =>
           let c2 := fold_left (fun c r => fst (cache_delete c (route_key (Path r)))) routes c1 in
           (mkService (repo s) c2, Ok tt)
       end.

(** What the store alone resolves a path to: the search of
    [Service.GetRouteByPath] past its cache. *)
Definition store_resolve (st : Store) (path : string) : result Route :=
  match repo_GetRoutes st with
  | Error e => Error e
  | Ok routes =>
      match first_match routes path with
      | Some r => Ok r
      | None => Error ErrRouteNotFound
      end
  end.

(* ===================================================================== *)
(** ** Go's [sync.RWMutex] *)
(* ===================================================================== *)

Module Sync.

(** Go standard library, [sync.RWMutex] (Go 1.21): the writer mutex [w],
    [readerCount] and [readerWait]. *)
Definition rwmutexMaxReaders : Z := 2 ^ 30.

Record RWMutex := mkRW { w_locked : bool; readerCount : Z; readerWait : Z }.

Definition unlocked : RWMutex := mkRW false 0 0.

(** [SBlock]: the goroutine parks on a semaphore; [SFatal]: the runtime's
    unrecoverable [fatal] error. *)
Inductive SyncResult := SOk (m : RWMutex) | SBlock | SFatal (msg : string).

Inductive LockOp := OpRLock | OpRUnlock | OpLock | OpUnlock.

Definition rw_op (m : RWMutex) (op : LockOp) : SyncResult :=
  match op with
  | OpRLock =>
      let rc := readerCount m + 1 in
      if rc <? 0 then SBlock else SOk (mkRW (w_locked m) rc (readerWait m))
  | OpRUnlock =>
      let r := readerCount m - 1 in
      if r <? 0 then
        if ((r + 1 =? 0) || (r + 1 =? - rwmutexMaxReaders))%bool
        then SFatal "sync: RUnlock of unlocked RWMutex"
        else SOk (mkRW (w_locked m) r (readerWait m - 1))
      else SOk (mkRW (w_locked m) r (readerWait m))
  | OpLock =>
      if w_locked m then SBlock
      else
        let r := readerCount m in
        let rc := r - rwmutexMaxReaders in
        if r =? 0 then SOk (mkRW true rc (readerWait m))
        else if readerWait m + r =? 0 then SOk (mkRW true rc 0)
        else SBlock
  | OpUnlock =>
      let r := readerCount m + rwmutexMaxReaders in
      if r >=? rwmutexMaxReaders then SFatal "sync: Unlock of unlocked RWMutex"
      else if negb (w_locked m) then SFatal "sync: unlock of unlocked mutex"
      else SOk (mkRW false r (readerWait m))
  end.

(** The operations run one after the other by one goroutine. *)
Fixpoint rw_run (m : RWMutex) (ops : list LockOp) : SyncResult :=
  match ops with
  | [] => SOk m
  | op :: ops' =>
      match rw_op m op with
      | SOk m' => rw_run m' ops'
      | other => other
      end
  end.

End Sync.

(* ===================================================================== *)
(** ** Circuit breaker (pkg/telemetry/tracing.go, package resilience) *)
(* ===================================================================== *)

Module Resilience.

Import Sync.

Inductive CircuitState := StateClose | StateOpen | StateHalfOpen.

Definition CircuitState_eqb (a b : CircuitState) : bool :=
  match a, b with
  | StateClose, StateClose | StateOpen, StateOpen | StateHalfOpen, StateHalfOpen => true
  | _, _ => false
  end.

(** Durations and instants in nanoseconds. *)
Record CircuitBreakerConfig := mkCBConfig {
  MaxRequestsFail : Z;
  Interval : Z;
  Timeout : Z;
  MaxRequests : Z
}.

Record CircuitBreaker := mkCB {
  maxFails : Z;
  interval : Z;
  timeout : Z;
  maxRequests : Z;
  state : CircuitState;
  failCount : Z;
  lastStateChangeTime : Z;
  nextAttemptTime : Z;
  halfOpenRequests : Z
}.

Definition Second : Z := 1000000000.

(** [NewCircuitBreaker], with its defaults for non-positive settings. *)
Definition NewCircuitBreaker (config : CircuitBreakerConfig) (now : Z) : CircuitBreaker :=
  mkCB (if MaxRequestsFail config <=? 0 then 5 else MaxRequestsFail config)
       (if Interval config <=? 0 then 60 * Second else Interval config)
       (if Timeout config <=? 0 then 30 * Second else Timeout config)
       (if MaxRequests config <=? 0 then 1 else MaxRequests config)
       StateClose 0 now 0 0.

(** [toOpen] *)
Definition toOpen (cb : CircuitBreaker) (now : Z) : CircuitBreaker :=
  mkCB (maxFails cb) (interval cb) (timeout cb) (maxRequests cb)
       StateOpen (failCount cb) now (now + timeout cb) (halfOpenRequests cb).

(** [toHalfOpen] *)
Definition toHalfOpen (cb : CircuitBreaker) (now : Z) : CircuitBreaker :=
  mkCB (maxFails cb) (interval cb) (timeout cb) (maxRequests cb)
       StateHalfOpen (failCount cb) now (nextAttemptTime cb) 0.

(** [toClose] *)
Definition toClose (cb : CircuitBreaker) (now : Z) : CircuitBreaker :=
  mkCB (maxFails cb) (interval cb) (timeout cb) (maxRequests cb)
       StateClose 0 now (nextAttemptTime cb) (halfOpenRequests cb).

Definition set_failCount (cb : CircuitBreaker) (n : Z) : CircuitBreaker :=
  mkCB (maxFails cb) (interval cb) (timeout cb) (maxRequests cb)
       (state cb) n (lastStateChangeTime cb) (nextAttemptTime cb) (halfOpenRequests cb).

(** [allowRequest]: the decision and the breaker after the call
    ([now.After(t)] is [now > t]), or [None] when the call ends in one of
    the Go runtime's fatal errors, which terminate the process. The
    mutex is taken to be held by no other goroutine. On the timed-out open
    path the function releases its read lock by hand, takes the write
    lock and defers its release; on return the deferred calls run last in,
    first out: [Unlock], then the [RUnlock] deferred at entry. *)
Definition allowRequest (cb : CircuitBreaker) (now : Z) : option (bool * CircuitBreaker) :=
  match state cb with
  | StateClose => Some (true, cb)
  | StateOpen =>
      if now >? nextAttemptTime cb then
        (* re-checked under the write lock *)
        let ret :=
          if (CircuitState_eqb (state cb) StateOpen && (now >? nextAttemptTime cb))%bool
          then (true, toHalfOpen cb now)
          else (false, cb) in
        match rw_run unlocked [OpRLock; OpRUnlock; OpLock; OpUnlock; OpRUnlock] with
        | SOk _ => Some ret
        | _ => None
        end
      else Some (false, cb)
  | StateHalfOpen => Some (halfOpenRequests cb <? maxRequests cb, cb)
  end.

(** [recordResult] *)
Definition recordResult (cb : CircuitBreaker) (success : bool) (now : Z) : CircuitBreaker :=
  match state cb with
  | StateClose =>
      if negb success then
        let cb1 := set_failCount cb (failCount cb + 1) in
        if failCount cb1 >=? maxFails cb1 then toOpen cb1 now else cb1
      else set_failCount cb 0
  | StateHalfOpen => if success then toClose cb now else toOpen cb now
  | StateOpen => cb
  end.

(** What [Execute] returns: [ErrCircuitOpen] without calling [fn], or the
    outcome of the one call of [fn]. *)
Inductive ExecResult := ErrCircuitOpen | Ran (ok : bool).

(** [Execute]: admission at [t_admit]; [fn] succeeds iff [fn_ok]; the
    result is recorded at [t_done]. [None]: the process died in
    [allowRequest]. *)
Definition Execute (cb : CircuitBreaker) (t_admit : Z) (fn_ok : bool) (t_done : Z)
  : option (CircuitBreaker * ExecResult) :=
  match allowRequest cb t_admit with
  | None => None
  | Some (allowed, cb1) =>
      if negb allowed then Some (cb1, ErrCircuitOpen)
      else Some (recordResult cb1 fn_ok t_done, Ran fn_ok)
  end.

(** Consecutive failures recorded at the given instants. *)
Definition record_failures (cb : CircuitBreaker) (ts : list Z) : CircuitBreaker :=
  fold_left (fun c t => recordResult c false t) ts cb.

(** Successive admission requests (no outcome recorded in between):
    the decisions and the final breaker; [None] if the process dies. *)
Fixpoint admit_all (cb : CircuitBreaker) (ts : list Z) : option (list bool * CircuitBreaker) :=
  match ts with
  | [] => Some ([], cb)
  | t :: ts' =>
      match allowRequest cb t with
      | None => None
      | Some (b, cb1) =>
          match admit_all cb1 ts' with
          | None => None
          | Some (bs, cb2) => Some (b :: bs, cb2)
          end
      end
  end.

(** The operations a caller can apply to a breaker, one at a time under
    its mutex, in a process that is still running: an admission check, a
    recorded outcome, or [Reset] (which is [toClose]). *)
Inductive cb_step : CircuitBreaker -> CircuitBreaker -> Prop :=
  | cb_step_allow cb now b cb' : allowRequest cb now = Some (b, cb') -> cb_step cb cb'
  | cb_step_record cb ok now : cb_step cb (recordResult cb ok now)
  | cb_step_reset cb now : cb_step cb (toClose cb now).

End Resilience.

(* ===================================================================== *)
(** ** The breaker's [sync.RWMutex] *)
(* ===================================================================== *)

Module Locking.

Import Sync Resilience.

(** The lock operations of [allowRequest], deferred calls included: the
    [defer RUnlock] of the entry and, on the timed-out open path, the
    explicit [RUnlock], [Lock] and [defer Unlock]; defers run last-in
    first-out. *)
Definition allowRequest_locks (cb : CircuitBreaker) (now : Z) : list LockOp :=
  match state cb with
  | StateOpen =>
      if now >? nextAttemptTime cb
      then [OpRLock; OpRUnlock; OpLock; OpUnlock; OpRUnlock]
      else [OpRLock; OpRUnlock]
  | _ => [OpRLock; OpRUnlock]
  end.

(** [recordResult], [Reset]: [Lock] and [defer Unlock]. *)
Definition recordResult_locks : list LockOp := [OpLock; OpUnlock].

End Locking.

(* ===================================================================== *)
(** ** IEEE 754 binary64 arithmetic, as Go's [float64] on amd64 *)
(* ===================================================================== *)

Module GoFloat.

(** A finite value [Fin m e] denotes [m * 2^e]. *)
Inductive float64 := Fin (m e : Z) | PInf | NInf | NaN.

(** [a / b] rounded to an integer, ties to even ([0 < b]). *)
Definition div_round_even (a b : Z) : Z :=
  let f := a / b in
  match Z.compare (2 * (a mod b)) b with
  | Lt => f
  | Gt => f + 1
  | Eq => if Z.even f then f else f + 1
  end.

(** floor(log2 (a / b)) for [0 < a], [0 < b]. *)
Definition flog2_frac (a b : Z) : Z :=
  let e0 := Z.log2 a - Z.log2 b in
  if (if 0 <=? e0 then a <? b * 2 ^ e0 else a * 2 ^ (- e0) <? b) then e0 - 1 else e0.

(** The positive rational [a / b] rounded to nearest, ties to even: 53
    significant bits, exponents down to the subnormal quantum 2^-1074;
    results of 2^1024 and above overflow to +Inf. *)
Definition round_pos (a b : Z) : float64 :=
  let qe := Z.max (flog2_frac a b - 52) (-1074) in
  let m := if 0 <=? qe then div_round_even a (b * 2 ^ qe)
           else div_round_even (a * 2 ^ (- qe)) b in
  if ((0 <=? qe) && (2 ^ 1024 <=? m * 2 ^ qe))%bool then PInf else Fin m qe.

Definition fneg (x : float64) : float64 :=
  match x with
  | Fin m e => Fin (- m) e
  | PInf => NInf
  | NInf => PInf
  | NaN => NaN
  end.

(** The double nearest to [a / b] ([0 < b]). *)
Definition round_frac (a b : Z) : float64 :=
  if a =? 0 then Fin 0 0
  else if a <? 0 then fneg (round_pos (- a) b)
  else round_pos a b.

(** [m * 2^e] as a fraction [(num, den)]. *)
Definition to_frac (m e : Z) : Z * Z :=
  if 0 <=? e then (m * 2 ^ e, 1) else (m, 2 ^ (- e)).

(** [float64(n)] for an integer [n]. *)
Definition float_of_int (n : Z) : float64 := round_frac n 1.

Definition is_neg (x : float64) : bool :=
  match x with
  | Fin m _ => m <? 0
  | NInf => true
  | _ => false
  end.

(** [x + y] *)
Definition fadd (x y : float64) : float64 :=
  match x, y with
  | Fin m1 e1, Fin m2 e2 =>
      let E := Z.min e1 e2 in
      let M := m1 * 2 ^ (e1 - E) + m2 * 2 ^ (e2 - E) in
      let '(a, b) := to_frac M E in round_frac a b
  | NaN, _ | _, NaN => NaN
  | PInf, NInf | NInf, PInf => NaN
  | PInf, _ | _, PInf => PInf
  | NInf, _ | _, NInf => NInf
  end.

(** [x * y] *)
Definition fmul (x y : float64) : float64 :=
  match x, y with
  | Fin m1 e1, Fin m2 e2 => let '(a, b) := to_frac (m1 * m2) (e1 + e2) in round_frac a b
  | NaN, _ | _, NaN => NaN
  | Fin m _, _ | _, Fin m _ =>
      if m =? 0 then NaN
      else if Bool.eqb (is_neg x) (is_neg y) then PInf else NInf
  | _, _ => if Bool.eqb (is_neg x) (is_neg y) then PInf else NInf
  end.

(** [x / d] for a positive integer constant [d]. *)
Definition fdiv_int (x : float64) (d : Z) : float64 :=
  match x with
  | Fin m e => let '(a, b) := to_frac m e in round_frac a (b * d)
  | other => other
  end.

(** [x <= 0] *)
Definition fle_zero (x : float64) : bool :=
  match x with
  | Fin m _ => m <=? 0
  | NInf => true
  | PInf | NaN => false
  end.

(** [int64(x)] (and [int(x)]): truncation toward zero; amd64's CVTTSD2SQ
    gives 0x8000000000000000 for NaN, infinities and values out of range. *)
Definition to_int64 (x : float64) : Z :=
  match x with
  | Fin m e =>
      let t := if 0 <=? e then m * 2 ^ e else Z.quot m (2 ^ (- e)) in
      if ((- 2 ^ 63 <=? t) && (t <? 2 ^ 63))%bool then t else - 2 ^ 63
  | _ => - 2 ^ 63
  end.

(** [time.Duration.Seconds]: [float64(d / Second) + float64(d % Second) / 1e9]. *)
Definition Seconds (d : Z) : float64 :=
  fadd (float_of_int (Z.quot d 1000000000))
       (fdiv_int (float_of_int (Z.rem d 1000000000)) 1000000000).

End GoFloat.

(* ===================================================================== *)
(** ** Rate limiter (pkg/ratelimit/redis_limiter.go) *)
(* ===================================================================== *)

Module RateLimit.

Import GoFloat.

(** [Period] in nanoseconds. *)
Record LimitConfig := mkLimitConfig {
  Key : string;
  Limit : Z;
  Period : Z;
  BurstFactor : float64
}.

Inductive LimitErr := ErrInvalidLimit | ErrInvalidPeriod | ErrRedis.

(** Redis keys: a counter and its absolute expiry (Unix seconds). *)
Abbreviation Redis := (gmap string (Z * option Z)).

(** The value of a key at [now]: an expired key reads as absent. *)
Definition live_count (rs : Redis) (k : string) (now : Z) : option (Z * option Z) :=
  match rs !! k with
  | Some (c, Some e) => if now <? e then Some (c, Some e) else None
  | other => other
  end.

(** The Lua script: [INCR key]; on [count == 1], [EXPIREAT key expireAt];
    returns [{count, limit - count, expireAt - now}]. *)
Definition script (rs : Redis) (k : string) (limit expireAt now : Z)
  : Redis * (Z * Z * Z) :=
  let '(count, exp) :=
    match live_count rs k now with
    | Some (c, e) => (c + 1, e)
    | None => (1, None)
    end in
  let exp' := if count =? 1 then Some expireAt else exp in
  (<[k := (count, exp')]> rs, (count, limit - count, expireAt - now)).

(** Go's [a % b] on int64: a run-time panic when [b = 0]. *)
Definition go_rem (a b : Z) : option Z := if b =? 0 then None else Some (Z.rem a b).

Record AllowResult := mkAllowResult {
  allowed : bool;
  limit : Z;
  remaining : Z;
  resetAfter : Z;     (* nanoseconds *)
  err : option LimitErr
}.

(** [if config.BurstFactor <= 0 { config.BurstFactor = 1.0 }] *)
Definition burst_factor (b : float64) : float64 := if fle_zero b then Fin 1 0 else b.

(** [int(float64(config.Limit) * config.BurstFactor)] *)
Definition burst_limit (L : Z) (b : float64) : Z := to_int64 (fmul (float_of_int L) b).

(** [int64(config.Period.Seconds())] *)
Definition period_seconds (P : Z) : Z := to_int64 (Seconds P).

(** [RedisLimiter.Allow]. [now] is [time.Now().Unix()]; [down] is a Redis
    that answers the script with an error. [None] is a Go panic. *)
Definition Allow (rs : Redis) (down : bool) (now : Z) (config : LimitConfig)
  : option (Redis * AllowResult) :=
  if Limit config <=? 0 then Some (rs, mkAllowResult true 0 0 0 (Some ErrInvalidLimit))
  else if Period config <=? 0 then Some (rs, mkAllowResult true 0 0 0 (Some ErrInvalidPeriod))
  else
    let burst := burst_factor (BurstFactor config) in
    let key := String.append "ratelimit:" (Key config) in
    let periodSeconds := period_seconds (Period config) in
    match go_rem now periodSeconds with
    | None => None
    | Some r =>
        let expireAt := now - r + periodSeconds in
        let resetAfter0 := (expireAt - now) * Resilience.Second in
        if down then
          Some (rs, mkAllowResult true (Limit config) (Limit config) resetAfter0 (Some ErrRedis))
        else
          let '(rs', (count, remaining0, ttl)) := script rs key (Limit config) expireAt now in
          let burstLimit := burst_limit (Limit config) burst in
          Some (rs', mkAllowResult (count <=? burstLimit) (Limit config) remaining0
                                   (ttl * Resilience.Second) None)
    end.


(** The configuration of [RateLimitMiddleware.IPRateLimit]: 100 requests a
    minute, burst factor 1.5. *)
Definition ip_config (clientIP : string) : LimitConfig :=
  mkLimitConfig clientIP 100 (60 * Resilience.Second) (Fin 3 (-1)).

Inductive IPDecision :=
  | IPBlockedAlready          (* 429, Retry-After 600 *)
  | IPNext                    (* c.Next() *)
  | IPBlockNow                (* block key set for 10 minutes, 429 *)
  | IPReject (retry : Z).     (* 429 with Retry-After *)

(** [RateLimitMiddleware.IPRateLimit]; [blocked] is the value read under
    ["ratelimit:blocked:" ++ clientIP]. *)
Definition IPRateLimit (rs : Redis) (down : bool) (now : Z) (clientIP : string) (blocked : bool)
  : option (Redis * IPDecision) :=
  if blocked then Some (rs, IPBlockedAlready)
  else
    match Allow rs down now (ip_config clientIP) with
    | None => None
    | Some (rs', res) =>
        match err res with
        | Some _ => Some (rs', IPNext)
        | None =>
            if (negb (allowed res) && (remaining res <? -100))%bool then Some (rs', IPBlockNow)
            else if negb (allowed res) then Some (rs', IPReject (Z.quot (resetAfter res) Resilience.Second))
            else Some (rs', IPNext)
        end
    end.

End RateLimit.

(* ===================================================================== *)
(** ** Reverse-proxy director (internal/adapter/proxy/proxy.go) *)
(* ===================================================================== *)

Module Proxy.

(** Go standard library, [textproto.validHeaderFieldByte]: letters, digits
    and [!#$%&'*+-.^_`|~]. *)
Definition validHeaderFieldByte (c : ascii) : bool :=
  let n := nat_of_ascii c in
  ((48 <=? n)%nat && (n <=? 57)%nat || (65 <=? n)%nat && (n <=? 90)%nat ||
   (97 <=? n)%nat && (n <=? 122)%nat ||
   existsb (Nat.eqb n) [33; 35; 36; 37; 38; 39; 42; 43; 45; 46; 94; 95; 96; 124; 126]%nat)%bool.

(** The case mapping of [textproto.canonicalMIMEHeaderKey]: upper case for
    the first byte and each byte after a ['-'], lower case elsewhere. *)
Fixpoint canonical_case (upper : bool) (s : string) : string :=
  match s with
  | EmptyString => EmptyString
  | String c rest =>
      let n := nat_of_ascii c in
      let c' :=
        if (upper && (97 <=? n)%nat && (n <=? 122)%nat)%bool then ascii_of_nat (n - 32)
        else if (negb upper && (65 <=? n)%nat && (n <=? 90)%nat)%bool then ascii_of_nat (n + 32)
        else c in
      String c' (canonical_case (Ascii.eqb c' "-"%char) rest)
  end.

(** [textproto.CanonicalMIMEHeaderKey] (Go 1.21): a key holding a byte
    that is not a valid field byte is returned unchanged, any other key is
    case-mapped. *)
Definition CanonicalMIMEHeaderKey (s : string) : string :=
  if forallb validHeaderFieldByte (String.list_ascii_of_string s) then canonical_case true s else s.

(** [http.Header]: values under their keys; net/http stores the keys of a
    received request in canonical form. *)
Abbreviation HttpHeader := (gmap string (list string)).

(** The first value of a key, or [""]. *)
Definition first_value (vs : option (list string)) : string :=
  match vs with
  | Some (v :: _) => v
  | _ => EmptyString
  end.

(** [Header.Get]: the first value under the canonical key, or [""]. *)
Definition HeaderGet (h : HttpHeader) (k : string) : string :=
  first_value (h !! CanonicalMIMEHeaderKey k).

(** [Header.Set]: the canonical key gets the one value. *)
Definition HeaderSet (h : HttpHeader) (k v : string) : HttpHeader :=
  <[CanonicalMIMEHeaderKey k := [v]]> h.

(** [Header.Del] *)
Definition HeaderDel (h : HttpHeader) (k : string) : HttpHeader :=
  delete (CanonicalMIMEHeaderKey k) h.

(** The parts of an [*http.Request] the director reads or writes.
    [RemoteAddr] is the ["IP:port"] string net/http fills in. *)
Record Request := mkRequest {
  Method : string;
  Scheme : string;
  URLHost : string;
  URLPath : string;
  RawQuery : string;
  RemoteAddr : string;
  Host : string;
  Header : HttpHeader
}.

(** The result of [url.Parse(route.ServiceURL)]. *)
Record URL := mkURL { u_Scheme : string; u_Host : string }.

(** The tracing state of the context the director injects from: the span
    context of the [doProxy] span ([IsValid], trace and span IDs as hex,
    the sampled flag, the W3C trace state as a string) and the context's
    baggage as a string. *)
Record TraceCtx := mkTraceCtx {
  tc_valid : bool;
  tc_trace_id : string;
  tc_span_id : string;
  tc_sampled : bool;
  tc_tracestate : string;
  tc_baggage : string
}.

(** [propagation.TraceContext.Inject]: nothing for an invalid span
    context; otherwise [tracestate] when non-empty, then
    [traceparent = 00-<trace id>-<span id>-<flags>]. *)
Definition TraceContext_Inject (tc : TraceCtx) (h : HttpHeader) : HttpHeader :=
  if negb (tc_valid tc) then h
  else
    let h1 := if String.eqb (tc_tracestate tc) EmptyString then h
              else HeaderSet h "tracestate" (tc_tracestate tc) in
    HeaderSet h1 "traceparent"
      (String.append "00-" (String.append (tc_trace_id tc) (String.append "-"
         (String.append (tc_span_id tc) (String.append "-" (if tc_sampled tc then "01" else "00")))))).

(** [propagation.Baggage.Inject]: [baggage] when non-empty. *)
Definition Baggage_Inject (tc : TraceCtx) (h : HttpHeader) : HttpHeader :=
  if String.eqb (tc_baggage tc) EmptyString then h else HeaderSet h "baggage" (tc_baggage tc).

(** The global propagator installed by [InitTracer]:
    [NewCompositeTextMapPropagator(TraceContext{}, Baggage{})], injecting
    through a [HeaderCarrier] (whose [Set] is [Header.Set]). *)
Definition Inject (tc : TraceCtx) (h : HttpHeader) : HttpHeader :=
  Baggage_Inject tc (TraceContext_Inject tc h).

(** The [for _, header := range route.Headers] loop of the director. *)
Fixpoint copy_headers (names : list string) (inbound : HttpHeader) (h : HttpHeader) : HttpHeader :=
  match names with
  | [] => h
  | n :: ns =>
      let val := HeaderGet inbound n in
      copy_headers ns inbound
        (if String.eqb val EmptyString then h else HeaderSet h n val)
  end.

(** The [Director] of [doProxy], applied to [req], the clone of the inbound
    request [r] that httputil.ReverseProxy hands it; [tc] is the tracing
    state of the [doProxy] span's context. *)
Definition Director (tc : TraceCtx) (targetURL : URL) (route : Route) (r req : Request) : Request :=
  let h1 := HeaderSet (Header req) "X-Forwarded-For" (RemoteAddr r) in
  let h2 := HeaderSet h1 "X-Forwarded-Host" (Host r) in
  let h3 := copy_headers (Headers route) (Header r) h2 in
  let h4 := Inject tc h3 in
  let h5 := if tc_valid tc
            then HeaderSet (HeaderSet h4 "X-Trace-ID" (tc_trace_id tc)) "X-Span-ID" (tc_span_id tc)
            else h4 in
  mkRequest (Method req) (u_Scheme targetURL) (u_Host targetURL)
            (URLPath r) (RawQuery r) (RemoteAddr req) (u_Host targetURL) h5.

(** [strings.IndexByte]: the first position of [c]. *)
Fixpoint IndexByte (s : string) (c : ascii) : option nat :=
  match s with
  | EmptyString => None
  | String ch rest =>
      if Ascii.eqb ch c then Some 0%nat
      else match IndexByte rest c with Some i => Some (S i) | None => None end
  end.

(** [strings.LastIndexByte]: the last position of [c]. *)
Fixpoint LastIndexByte (s : string) (c : ascii) : option nat :=
  match s with
  | EmptyString => None
  | String ch rest =>
      match LastIndexByte rest c with
      | Some i => Some (S i)
      | None => if Ascii.eqb ch c then Some 0%nat else None
      end
  end.

(** [s[i:j]] *)
Definition slice (s : string) (i j : nat) : string := String.substring i (j - i) s.

(** [net.SplitHostPort], the host part ([None]: an error). *)
Definition SplitHostPort (hostport : string) : option string :=
  match LastIndexByte hostport ":"%char with
  | None => None                                    (* missing port *)
  | Some i =>
      let bracket :=
        match String.get 0 hostport with
        | Some "["%char =>
            match IndexByte hostport "]"%char with
            | None => None                          (* missing ']' *)
            | Some en =>
                if Nat.eqb (en + 1) (String.length hostport) then None   (* missing port *)
                else if Nat.eqb (en + 1) i then Some (slice hostport 1 en, 1%nat, (en + 1)%nat)
                else None                           (* too many colons / missing port *)
            end
        | _ =>
            let host := slice hostport 0 i in
            match IndexByte host ":"%char with
            | Some _ => None                        (* too many colons *)
            | None => Some (host, 0%nat, 0%nat)
            end
        end in
      match bracket with
      | None => None
      | Some (host, j, k) =>
          match IndexByte (slice hostport j (String.length hostport)) "["%char,
                IndexByte (slice hostport k (String.length hostport)) "]"%char with
          | None, None => Some host
          | _, _ => None                             (* unexpected '[' or ']' *)
          end
      end
  end.

(** [strings.Split(s, ",")] *)
Fixpoint split_comma (s : string) : list string :=
  match s with
  | EmptyString => [EmptyString]
  | String c rest =>
      if Ascii.eqb c ","%char then EmptyString :: split_comma rest
      else match split_comma rest with
           | w :: ws => String c w :: ws
           | [] => [String c EmptyString]
           end
  end.

Fixpoint trim_left (sp : ascii -> bool) (s : string) : string :=
  match s with
  | String c rest => if sp c then trim_left sp rest else s
  | EmptyString => EmptyString
  end.

Definition trim (sp : ascii -> bool) (s : string) : string :=
  String.string_of_list_ascii (rev (String.list_ascii_of_string
    (trim_left sp (String.string_of_list_ascii (rev (String.list_ascii_of_string (trim_left sp s))))))).

(** [textproto.TrimString]: ASCII space, tab, CR and LF. *)
Definition TrimString (s : string) : string :=
  trim (fun c => existsb (Ascii.eqb c) [" "%char; "009"%char; "010"%char; "013"%char]) s.

(** [httpguts]'s [trimOWS]: space and tab. *)
Definition trimOWS (s : string) : string :=
  trim (fun c => existsb (Ascii.eqb c) [" "%char; "009"%char]) s.

Definition lower_ascii (c : ascii) : ascii :=
  let n := nat_of_ascii c in
  if ((65 <=? n)%nat && (n <=? 90)%nat)%bool then ascii_of_nat (n + 32) else c.

Definition lower_string (s : string) : string :=
  String.string_of_list_ascii (map lower_ascii (String.list_ascii_of_string s)).

(** [httpguts.HeaderValuesContainsToken]: some comma-separated element of
    some value equals [token], ASCII case-insensitively. *)
Definition HeaderValuesContainsToken (values : list string) (token : string) : bool :=
  existsb (fun v => existsb (fun t =>
    String.eqb (lower_string (trimOWS t)) (lower_string token))
    (split_comma v)) values.

Definition header_values (h : HttpHeader) (k : string) : list string :=
  match h !! k with Some vs => vs | None => [] end.

(** The hop-by-hop headers httputil removes. *)
Definition hopHeaders : list string :=
  ["Connection"; "Proxy-Connection"; "Keep-Alive"; "Proxy-Authenticate";
   "Proxy-Authorization"; "Te"; "Trailer"; "Transfer-Encoding"; "Upgrade"].

(** [removeHopByHopHeaders]: the names listed in [Connection], then the
    fixed list. *)
Definition removeHopByHopHeaders (h : HttpHeader) : HttpHeader :=
  let listed := flat_map (fun f => map TrimString (split_comma f)) (header_values h "Connection") in
  let h1 := fold_left (fun acc sf => if String.eqb sf EmptyString then acc else HeaderDel acc sf) listed h in
  fold_left HeaderDel hopHeaders h1.

Definition with_header (out : Request) (h : HttpHeader) : Request :=
  mkRequest (Method out) (Scheme out) (URLHost out) (URLPath out) (RawQuery out)
            (RemoteAddr out) (Host out) h.

(** Go standard library, [httputil.ReverseProxy.ServeHTTP] with a
    [Director] (Go 1.21), what it does to the outbound header after the
    director has run: hop-by-hop removal, [Te: trailers] and the upgrade
    headers put back, the client IP of the inbound [RemoteAddr] appended
    to any [X-Forwarded-For] already present (comma separated; a nil value
    means do not set), and an empty [User-Agent] when there is none. An
    [Upgrade] value with non-printable bytes, which makes ServeHTTP answer
    with its error handler instead, is not modelled. *)
Definition after_director (inbound out : Request) : Request :=
  let h0 := Header out in
  let reqUpType :=
    if HeaderValuesContainsToken (header_values h0 "Connection") "Upgrade"
    then HeaderGet h0 "Upgrade" else EmptyString in
  let h1 := removeHopByHopHeaders h0 in
  let h2 := if HeaderValuesContainsToken (header_values (Header inbound) "Te") "trailers"
            then HeaderSet h1 "Te" "trailers" else h1 in
  let h3 := if String.eqb reqUpType EmptyString then h2
            else HeaderSet (HeaderSet h2 "Connection" "Upgrade") "Upgrade" reqUpType in
  let h4 :=
    match SplitHostPort (RemoteAddr inbound) with
    | None => h3
    | Some clientIP =>
        match h3 !! "X-Forwarded-For" with
        | Some [] => h3
        | Some (p :: ps) =>
            HeaderSet h3 "X-Forwarded-For"
              (String.append (foldl (fun acc x => String.append acc (String.append ", " x)) p ps)
                             (String.append ", " clientIP))
        | None => HeaderSet h3 "X-Forwarded-For" clientIP
        end
    end in
  let h5 := match h4 !! "User-Agent" with
            | Some _ => h4
            | None => HeaderSet h4 "User-Agent" EmptyString
            end in
  with_header out h5.

(** The outbound request: clone, director, then the steps above. *)
Definition outbound (tc : TraceCtx) (targetURL : URL) (route : Route) (r : Request) : Request :=
  after_director r (Director tc targetURL route r r).

End Proxy.

(* ===================================================================== *)
(** ** Breaker registry and [ProxyRequest] (adapter/proxy/proxy.go) *)
(* ===================================================================== *)

Module ProxyFlow.

Import Resilience.

Abbreviation Registry := (gmap string CircuitBreaker).

(** The configuration [getCircuitBreaker] builds: [MaxRequestsFail] is
    left at its zero value. *)
Definition proxy_cb_config : CircuitBreakerConfig :=
  mkCBConfig 0 (60 * Second) (30 * Second) 5.

(** [ReverseProxy.getCircuitBreaker], with its double-checked lookup. *)
Definition getCircuitBreaker (reg : Registry) (serviceURL : string) (now : Z) : Registry * CircuitBreaker :=
  match reg !! serviceURL with
  | Some cb => (reg, cb)
  | None =>
      match reg !! serviceURL with
      | Some cb => (reg, cb)
      | None =>
          let cb := NewCircuitBreaker proxy_cb_config now in
          (<[serviceURL := cb]> reg, cb)
      end
  end.

(** [strings.Contains] *)
Fixpoint Contains (s sub : string) : bool :=
  (String.prefix sub s ||
   match s with
   | EmptyString => false
   | String _ s' => Contains s' sub
   end)%bool.

(** The classification of the [ErrorHandler] of [doProxy]: error type and
    status written. *)
Definition ErrorHandler (msg : string) : string * Z :=
  if Contains msg "context deadline exceeded" then ("timeout_error", 504)
  else if Contains msg "connection refused" then ("connection_refused", 503)
  else if Contains msg "no such host" then ("host_not_found", 502)
  else ("proxy_error", 502).

(** What [proxy.ServeHTTP] meets upstream: a response with its status, or
    a transport error with its message. *)
Inductive Upstream := UpResponse (status : Z) | UpTransportError (msg : string).

(** [doProxy]: the status written to the client and whether an error is
    returned. [parses] is whether [url.Parse(route.ServiceURL)] succeeds. *)
Definition doProxy (parses : bool) (up : Upstream) : Z * bool :=
  if negb parses then (500, true)
  else match up with
       | UpResponse st => (st, false)
       | UpTransportError m => (snd (ErrorHandler m), false)
       end.

Inductive ProxyErr := PErrCircuitOpen | PErrParse.

(** [ReverseProxy.ProxyRequest]: the breaker of the service URL runs
    [doProxy] (pure, so evaluated up front and used only when it runs);
    the registry holds the breaker by pointer, so its new state is written
    back. The result: the registry, the status written (if [doProxy] ran)
    and the error returned; [None] if the process died in the breaker. *)
Definition ProxyRequest (reg : Registry) (route : Route) (parses : bool) (up : Upstream)
    (t_admit t_done : Z) : option (Registry * option Z * option ProxyErr) :=
  let '(reg1, cb) := getCircuitBreaker reg (ServiceURL route) t_admit in
  let '(status, failed) := doProxy parses up in
  match Execute cb t_admit (negb failed) t_done with
  | None => None
  | Some (cb', res) =>
      let reg2 := <[ServiceURL route := cb']> reg1 in
      match res with
      | ErrCircuitOpen => Some (reg2, None, Some PErrCircuitOpen)
      | Ran true => Some (reg2, Some status, None)
      | Ran false => Some (reg2, Some status, Some PErrParse)
      end
  end.

(** Successive proxied requests of one route: upstream outcome, admission
    and completion instants. *)
Fixpoint proxy_seq (reg : Registry) (route : Route) (parses : bool) (calls : list (Upstream * Z * Z))
  : option (Registry * list (option Z * option ProxyErr)) :=
  match calls with
  | [] => Some (reg, [])
  | (up, ta, td) :: calls' =>
      match ProxyRequest reg route parses up ta td with
      | None => None
      | Some (reg1, st, e) =>
          match proxy_seq reg1 route parses calls' with
          | None => None
          | Some (reg2, outs) => Some (reg2, (st, e) :: outs)
          end
      end
  end.

End ProxyFlow.

(* ===================================================================== *)
(** ** Request-path handler (unnamed/part_018, Handler.ServeAPI) *)
(* ===================================================================== *)

Module Handler.

Import Proxy.

(** The JSON error bodies of [ServeAPI]. *)
Inductive Body :=
  | BodyAPINotFound          (* "API not found" *)
  | BodyAPIUnavailable       (* "API não disponível" *)
  | BodyMethodNotAllowed     (* "Method not allowed" *)
  | BodyMissingHeaders.      (* "Missing required headers" *)

Inductive Response :=
  | Respond (status : Z) (body : Body)
  | Proxied (route : Route).   (* handed to [proxy.ProxyRequest] *)

(** The [headers] map built from the non-empty required headers. *)
Fixpoint collect_headers (names : list string) (h : HttpHeader) : gmap string string :=
  match names with
  | [] => ∅
  | n :: ns =>
      let m := collect_headers ns h in
      let value := HeaderGet h n in
      if String.eqb value EmptyString then m else <[n := value]> m
  end.

(** [Handler.ServeAPI] *)
Definition ServeAPI (s : Service) (req : Request) : Service * Response :=
  let path := URLPath req in
  let '(s', res) := GetRouteByPath s path in
  match res with
  | Error _ => (s', Respond 404 BodyAPINotFound)
  | Ok route =>
      if negb (IsActive route) then (s', Respond 503 BodyAPIUnavailable)
      else if negb (IsMethodAllowed route (Method req)) then (s', Respond 405 BodyMethodNotAllowed)
      else if (0 <? length (RequiredHeaders route))%nat then
        let headers := collect_headers (RequiredHeaders route) (Header req) in
        if negb (HasRequiredHeaders route headers) then (s', Respond 400 BodyMissingHeaders)
        else (s', Proxied route)
      else (s', Proxied route)
  end.

End Handler.

(* ===================================================================== *)
(** * Properties *)
(* ===================================================================== *)

(** ** Route matching and the catalogue *)

Definition r_exact : Route := mkRoute "/a/b" "http://exact:1" ["GET"] [] true [].
Definition r_param : Route := mkRoute "/a/:x" "http://param:1" ["GET"] [] true [].
Definition r_wild : Route := mkRoute "/a/*" "http://wild:1" ["GET"] [] true [].

Definition empty_cache : Cache := mkCache ∅ true.

Definition svc_of (rs : list Route) : Service := mkService (mkStore rs true) empty_cache.

(** A catalogue holding only /a/*, whose cache already answered /a/b with
    the wildcard descriptor. *)
Definition svc_cached_wild : Service :=
  mkService (mkStore [r_wild] true)
            (mkCache (<[route_key "/a/b" := CRoute r_wild]> ∅) true).

Lemma first_match_spec (rs : list Route) (p : string) (r : Route) :
  first_match rs p = Some r <->
  exists l1 l2, rs = l1 ++ r :: l2 /\ MatchRoutePath (Path r) p = true /\
                Forall (fun x => MatchRoutePath (Path x) p = false) l1.
Proof.
  induction rs as [|a rs IH]; simpl.
  - split; [discriminate|].
    intros (l1 & l2 & Heq & _). destruct l1; discriminate.
  - destruct (MatchRoutePath (Path a) p) eqn:E.
    + split.
      * intros [= <-]. exists [], rs. auto.
      * intros (l1 & l2 & Heq & Hm & Hf). destruct l1 as [|b l1]; simpl in Heq.
        -- injection Heq as -> ->. reflexivity.
        -- injection Heq as -> ->. inversion Hf; congruence.
    + rewrite IH. split.
      * intros (l1 & l2 & -> & Hm & Hf). exists (a :: l1), l2. auto.
      * intros (l1 & l2 & Heq & Hm & Hf). destruct l1 as [|b l1]; simpl in Heq;
          injection Heq; intros; subst.
        -- congruence.
        -- exists l1, l2. inversion Hf; auto.
Qed.

(** C1 (as stated: the exact pattern always wins, whatever the store
    order) fails: with /a/*, /a/:x, /a/b stored in that order, /a/b resolves
    to the wildcard route; in the reverse order it resolves to /a/b. *)
Lemma C1_store_order_decides :
  snd (GetRouteByPath (svc_of [r_wild; r_param; r_exact]) "/a/b") = Ok r_wild /\
  snd (GetRouteByPath (svc_of [r_exact; r_param; r_wild]) "/a/b") = Ok r_exact.
Proof. split; vm_compute; reflexivity. Qed.

(** C1 (amended): on a cache hit under route:<path> GetRouteByPath returns
    the cached descriptor and changes nothing; when the cache holds no
    decodable descriptor there and the store answers, it returns route r
    exactly when r is the first active route, in store order, whose
    pattern matches the path. *)
Theorem GetRouteByPath_first_in_store_order (s : Service) (path : string) (r : Route) :
  (cache_get_route (cache s) (route_key path) = LHit r -> GetRouteByPath s path = (s, Ok r)) /\
  ((forall x, cache_get_route (cache s) (route_key path) <> LHit x) ->
   db_up (repo s) = true ->
   (snd (GetRouteByPath s path) = Ok r <->
    exists l1 l2, filter (fun x => IsActive x = true) (rows (repo s)) = l1 ++ r :: l2 /\
                  MatchRoutePath (Path r) path = true /\
                  Forall (fun x => MatchRoutePath (Path x) path = false) l1)).
Proof.
  split.
  - intros Hhit. unfold GetRouteByPath. rewrite Hhit. reflexivity.
  - intros Hmiss Hdb. rewrite <- first_match_spec.
    unfold GetRouteByPath, repo_GetRoutes. rewrite Hdb.
    destruct (cache_get_route (cache s) (route_key path)) eqn:Hc;
      [exfalso; exact (Hmiss a eq_refl) | |];
    destruct (first_match _ path) as [r'|] eqn:Hf;
    try (destruct (cache_set (cache s) (route_key path) (CRoute r')));
    simpl; split; congruence.
Qed.

Lemma GetRouteByPath_first_in_store_order_witness :
  GetRouteByPath svc_cached_wild "/a/b" = (svc_cached_wild, Ok r_wild) /\
  snd (GetRouteByPath (svc_of [r_wild; r_param; r_exact]) "/a/b") = Ok r_wild.
Proof.
  split.
  - apply (proj1 (GetRouteByPath_first_in_store_order svc_cached_wild "/a/b" r_wild)).
    vm_compute. reflexivity.
  - apply (proj2 (GetRouteByPath_first_in_store_order (svc_of [r_wild; r_param; r_exact]) "/a/b" r_wild)).
    + intros x. vm_compute. discriminate.
    + reflexivity.
    + exists [], [r_param; r_exact]. split; [reflexivity|]. split; [vm_compute; reflexivity|].
      constructor.
Defined.

(** The sibling mutations drop both keys from a reachable cache. *)
Lemma UpdateRoute_invalidates_both (s s' : Service) (r : Route) :
  reachable (cache s) = true ->
  UpdateRoute s r = (s', Ok tt) ->
  entries (cache s') !! route_key (Path r) = None /\ entries (cache s') !! "routes" = None.
Proof.
  intros Hr. unfold UpdateRoute, cache_delete. rewrite Hr.
  destruct (repo_UpdateRoute (repo s) r); [|discriminate].
  intros [= <-]. simpl. split.
  - destruct (decide (route_key (Path r) = "routes")) as [E|E].
    + rewrite E. apply lookup_delete_eq.
    + rewrite lookup_delete_ne by congruence. apply lookup_delete_eq.
  - apply lookup_delete_eq.
Qed.

Lemma DeleteRoute_invalidates_both (s s' : Service) (p : string) :
  reachable (cache s) = true ->
  DeleteRoute s p = (s', Ok tt) ->
  entries (cache s') !! route_key p = None /\ entries (cache s') !! "routes" = None.
Proof.
  intros Hr. unfold DeleteRoute, cache_delete. rewrite Hr.
  destruct (repo_DeleteRoute (repo s) p); [|discriminate].
  intros [= <-]. simpl. split.
  - destruct (decide (route_key p = "routes")) as [E|E].
    + rewrite E. apply lookup_delete_eq.
    + rewrite lookup_delete_ne by congruence. apply lookup_delete_eq.
  - apply lookup_delete_eq.
Qed.

(** C6 (code_bug): AddRoute of /a/b succeeds, wherever the store puts the
    new row, but leaves route:/a/b in the cache, so the next
    GetRouteByPath("/a/b") still returns the pre-mutation descriptor (the
    wildcard route) instead of the new one. *)
Theorem AddRoute_keeps_route_key (pos : nat) :
  let '(s1, res) := AddRoute svc_cached_wild r_exact pos in
  res = Ok tt /\
  entries (cache s1) !! route_key "/a/b" = Some (CRoute r_wild) /\
  snd (GetRouteByPath s1 "/a/b") = Ok r_wild.
Proof. destruct pos as [|pos]; vm_compute; auto. Qed.

(** A shared cache that cannot be reached, over a store that answers. *)
Definition svc_cache_down : Service :=
  mkService (mkStore [r_exact] true) (mkCache ∅ false).

(** C7 (as stated: both catalogue reads ignore a cache read error and
    answer from the store) fails: with the shared cache unreachable,
    GetRoutes returns the cache error although the store holds an active
    route, while GetRouteByPath on the same state falls through to the
    store. *)
Theorem GetRoutes_fails_on_cache_error :
  snd (GetRoutes svc_cache_down) = Error ErrCache /\
  snd (GetRouteByPath svc_cache_down "/a/b") = Ok r_exact /\
  repo_GetRoutes (repo svc_cache_down) = Ok [r_exact].
Proof. vm_compute. auto. Qed.

(** C7 (amended): a cache read error on "routes" makes GetRoutes return
    that error without reading the store, and leaves the service as it
    was; a cache read error on route:<path> makes GetRouteByPath answer
    what the store resolves the path to. *)
Theorem GetRoutes_cache_error_propagates (s : Service) (p : string) :
  (cache_get_routes (cache s) "routes" = LErr -> GetRoutes s = (s, Error ErrCache)) /\
  (cache_get_route (cache s) (route_key p) = LErr ->
   snd (GetRouteByPath s p) = store_resolve (repo s) p).
Proof.
  split.
  - intros He. unfold GetRoutes. rewrite He. reflexivity.
  - intros He. unfold GetRouteByPath, store_resolve. rewrite He.
    destruct (repo_GetRoutes (repo s)) as [routes|e]; [|reflexivity].
    destruct (first_match routes p) as [r|]; [|reflexivity].
    destruct (cache_set (cache s) (route_key p) (CRoute r)). reflexivity.
Qed.

Lemma GetRoutes_cache_error_propagates_witness :
  GetRoutes svc_cache_down = (svc_cache_down, Error ErrCache) /\
  snd (GetRouteByPath svc_cache_down "/a/b") = store_resolve (repo svc_cache_down) "/a/b".
Proof.
  split.
  - apply (proj1 (GetRoutes_cache_error_propagates svc_cache_down "/a/b")). reflexivity.
  - apply (proj2 (GetRoutes_cache_error_propagates svc_cache_down "/a/b")). reflexivity.
Defined.

Lemma match_parts_spec (a b : list string) :
  length a = length b ->
  (match_parts a b = true <->
   forall i x y, a !! i = Some x -> b !! i = Some y -> HasPrefix x ":" = false -> x = y).
Proof.
  revert b. induction a as [|p a IH]; intros [|q b] Hlen; simpl in *; try discriminate.
  - split; [intros _ i x y Hx; discriminate | auto].
  - injection Hlen as Hlen. destruct (HasPrefix p ":") eqn:Hp.
    + rewrite (IH b Hlen). split.
      * intros H [|i] x y Hx Hy Hpx; simpl in *.
        -- injection Hx as <-. congruence.
        -- eauto.
      * intros H i x y Hx Hy Hpx. exact (H (S i) x y Hx Hy Hpx).
    + rewrite andb_true_iff, String.eqb_eq, (IH b Hlen). split.
      * intros [-> H] [|i] x y Hx Hy Hpx; simpl in *.
        -- congruence.
        -- eauto.
      * intros H. split.
        -- exact (H 0%nat p q eq_refl eq_refl Hp).
        -- intros i x y Hx Hy Hpx. exact (H (S i) x y Hx Hy Hpx).
Qed.

(** C8 (as stated) fails: /weather/:cep matches /weather/, whose segment
    aligned with the placeholder is empty. *)
Lemma C8_placeholder_matches_empty :
  MatchRoutePath "/weather/:cep" "/weather/" = true /\
  SplitSlash "/weather/:cep" !! 2%nat = Some ":cep" /\
  SplitSlash "/weather/" !! 2%nat = Some "".
Proof. vm_compute. auto. Qed.

(** C8 (amended): for a pattern with a colon and without a trailing /*,
    the pattern matches a path exactly when both split into the same number
    of /-separated segments and every segment of the pattern not starting
    with ':' equals the aligned request segment; a placeholder segment
    matches any request segment, the empty one included. *)
Theorem MatchRoutePath_placeholder_spec (P R : string) :
  HasSuffix P "/*" = false ->
  ContainsChar P ":"%char = true ->
  (MatchRoutePath P R = true <->
   length (SplitSlash P) = length (SplitSlash R) /\
   forall i x y, SplitSlash P !! i = Some x -> SplitSlash R !! i = Some y ->
                 HasPrefix x ":" = false -> x = y).
Proof.
  intros Hs Hc. unfold MatchRoutePath.
  destruct (String.eqb P R) eqn:E.
  - apply String.eqb_eq in E. subst R. split; [|reflexivity].
    intros _. split; [reflexivity|]. congruence.
  - rewrite Hs, Hc.
    destruct (Nat.eqb (length (SplitSlash P)) (length (SplitSlash R))) eqn:Hl; simpl.
    + apply Nat.eqb_eq in Hl. rewrite (match_parts_spec _ _ Hl). tauto.
    + apply Nat.eqb_neq in Hl. split; [discriminate | intros [H _]; contradiction].
Qed.

Lemma MatchRoutePath_placeholder_spec_witness :
  MatchRoutePath "/weather/:cep" "/weather/" = true.
Proof.
  apply (MatchRoutePath_placeholder_spec "/weather/:cep" "/weather/");
    [reflexivity | reflexivity |].
  split; [reflexivity|].
  intros [|[|[|i]]] x y Hx Hy Hp; vm_compute in Hx, Hy;
    try discriminate; injection Hx as <-; injection Hy as <-; try reflexivity.
  vm_compute in Hp. discriminate.
Defined.

(** ** Circuit breaker *)

Section Breaker.
Import Sync Resilience.

Lemma record_failures_app (cb : CircuitBreaker) (ts ts' : list Z) :
  record_failures cb (ts ++ ts') = record_failures (record_failures cb ts) ts'.
Proof. unfold record_failures. apply fold_left_app. Qed.

(** Below the threshold a failure only increments the counter. *)
Lemma record_failures_below (cb : CircuitBreaker) (ts : list Z) :
  state cb = StateClose ->
  failCount cb + Z.of_nat (length ts) < maxFails cb ->
  let cb' := record_failures cb ts in
  state cb' = StateClose /\ failCount cb' = failCount cb + Z.of_nat (length ts) /\
  maxFails cb' = maxFails cb /\ timeout cb' = timeout cb.
Proof.
  revert cb. induction ts as [|t ts IH]; intros cb Hst Hlt; simpl.
  - repeat split; auto; lia.
  - simpl in Hlt.
    assert (Hstep : recordResult cb false t = set_failCount cb (failCount cb + 1)).
    { unfold recordResult. rewrite Hst. simpl.
      destruct (failCount cb + 1 >=? maxFails cb) eqn:E; [lia|reflexivity]. }
    change (fold_left (fun c t0 => recordResult c false t0) ts (recordResult cb false t))
      with (record_failures (recordResult cb false t) ts).
    rewrite Hstep.
    destruct (IH (set_failCount cb (failCount cb + 1))) as (H1 & H2 & H3 & H4);
      simpl; auto; try lia.
    repeat split; auto; rewrite H2; simpl; lia.
Qed.

(** C2: from closed with no failures counted, the maxFails-th consecutive
    failure (recorded at t) opens the breaker with nextAttempt = t +
    timeout; while open and before nextAttempt, Execute returns
    ErrCircuitOpen without calling the function and leaves the breaker
    unchanged; a success recorded in closed resets the count to 0. *)
Theorem breaker_opens_and_rejects :
  (forall (cb : CircuitBreaker) (ts : list Z) (t : Z),
      state cb = StateClose -> failCount cb = 0 ->
      Z.of_nat (length ts) + 1 = maxFails cb ->
      state (record_failures cb (ts ++ [t])) = StateOpen /\
      nextAttemptTime (record_failures cb (ts ++ [t])) = t + timeout cb) /\
  (forall (cb : CircuitBreaker) (now : Z) (fn_ok : bool) (t_done : Z),
      state cb = StateOpen -> now < nextAttemptTime cb ->
      Execute cb now fn_ok t_done = Some (cb, ErrCircuitOpen)) /\
  (forall (cb : CircuitBreaker) (now : Z),
      state cb = StateClose ->
      state (recordResult cb true now) = StateClose /\
      failCount (recordResult cb true now) = 0).
Proof.
  split; [|split].
  - intros cb ts t Hst Hf Hlen.
    rewrite record_failures_app.
    destruct (record_failures_below cb ts Hst) as (H1 & H2 & H3 & H4); [lia|].
    remember (record_failures cb ts) as c.
    simpl. unfold recordResult. rewrite H1. simpl.
    replace (failCount c + 1 >=? maxFails c) with true by (symmetry; apply Z.geb_le; lia).
    simpl. split; [reflexivity|]. rewrite H4. reflexivity.
  - intros cb now fn_ok t_done Hst Hlt.
    unfold Execute, allowRequest. rewrite Hst.
    replace (now >? nextAttemptTime cb) with false by (symmetry; rewrite Z.gtb_ltb; apply Z.ltb_ge; lia).
    reflexivity.
  - intros cb now Hst. unfold recordResult. rewrite Hst. simpl. auto.
Qed.

(** The constructor's breaker, for the witness: 5 failures by default. *)
Definition cb_default : CircuitBreaker := NewCircuitBreaker (mkCBConfig 0 0 0 0) 0.

Lemma breaker_opens_and_rejects_witness :
  state (record_failures cb_default [1; 2; 3; 4; 5]) = StateOpen /\
  Execute (record_failures cb_default [1; 2; 3; 4; 5]) 6 true 7
    = Some (record_failures cb_default [1; 2; 3; 4; 5], ErrCircuitOpen).
Proof.
  destruct breaker_opens_and_rejects as [Hopen [Hrej _]].
  split.
  - exact (proj1 (Hopen cb_default [1; 2; 3; 4] 5 eq_refl eq_refl eq_refl)).
  - apply Hrej; vm_compute; reflexivity.
Defined.

(** The lock operations of allowRequest's timed-out open path, run on a
    mutex nobody else holds, end in Go's fatal error. *)
Lemma open_retry_locks_fatal :
  rw_run unlocked [OpRLock; OpRUnlock; OpLock; OpUnlock; OpRUnlock]
  = SFatal "sync: RUnlock of unlocked RWMutex".
Proof. reflexivity. Qed.

Lemma allowRequest_open_retry (cb : CircuitBreaker) (t : Z) :
  state cb = StateOpen -> nextAttemptTime cb < t -> allowRequest cb t = None.
Proof.
  intros Hst Hlt. unfold allowRequest. rewrite Hst.
  replace (t >? nextAttemptTime cb) with true by (symmetry; apply Z.gtb_lt; lia).
  rewrite open_retry_locks_fatal. reflexivity.
Qed.

(** A step of a running process never enters half-open: allowRequest's
    move to half-open is on the path that dies. *)
Lemma cb_step_not_half_open (cb cb' : CircuitBreaker) :
  state cb <> StateHalfOpen -> cb_step cb cb' -> state cb' <> StateHalfOpen.
Proof.
  intros Hs Hstep. destruct Hstep as [cb now b cb' Ha|cb ok now|cb now].
  - unfold allowRequest in Ha. destruct (state cb) eqn:Hst.
    + injection Ha as _ <-. rewrite Hst. discriminate.
    + destruct (now >? nextAttemptTime cb).
      * rewrite open_retry_locks_fatal in Ha. discriminate.
      * injection Ha as _ <-. rewrite Hst. discriminate.
    + contradiction.
  - unfold recordResult. destruct (state cb) eqn:Hst.
    + destruct ok; [unfold set_failCount; simpl; rewrite Hst; discriminate|].
      destruct (failCount (set_failCount cb (failCount cb + 1)) >=?
                maxFails (set_failCount cb (failCount cb + 1))).
      * unfold toOpen. simpl. discriminate.
      * unfold set_failCount. simpl. rewrite Hst. discriminate.
    + rewrite Hst. discriminate.
    + contradiction.
  - unfold toClose. simpl. discriminate.
Qed.

Lemma record_failures_reachable (cb : CircuitBreaker) (ts : list Z) :
  rtc cb_step cb (record_failures cb ts).
Proof.
  revert cb. induction ts as [|t ts IH]; intros cb; [apply rtc_refl|].
  eapply rtc_l; [apply (cb_step_record cb false t)|]. apply IH.
Qed.

(** C3 (code_bug): half-open admits nobody. No breaker a running process
    reaches from NewCircuitBreaker is half-open, and once an open
    breaker's retry instant has passed, the next admission request (the
    one that should start the half-open trial) ends the process with Go's
    fatal "RUnlock of unlocked RWMutex": allowRequest, Execute and any run
    of admission requests return no answer, neither an admission nor
    ErrCircuitOpen. *)
Theorem half_open_unreachable (config : CircuitBreakerConfig) (now : Z) (cb : CircuitBreaker) :
  rtc cb_step (NewCircuitBreaker config now) cb ->
  state cb <> StateHalfOpen /\
  (forall (t : Z) (fn_ok : bool) (t_done : Z) (ts : list Z),
     state cb = StateOpen -> nextAttemptTime cb < t ->
     allowRequest cb t = None /\ Execute cb t fn_ok t_done = None /\ admit_all cb (t :: ts) = None).
Proof.
  intros Hr. split.
  - remember (NewCircuitBreaker config now) as cb0 eqn:E.
    assert (H0 : state cb0 <> StateHalfOpen) by (subst; discriminate). clear E.
    induction Hr as [x|x y z Hxy _ IH]; [exact H0|].
    apply IH. exact (cb_step_not_half_open x y H0 Hxy).
  - intros t fn_ok t_done ts Hst Hlt.
    pose proof (allowRequest_open_retry cb t Hst Hlt) as Ha.
    unfold Execute. simpl. rewrite Ha. auto.
Qed.

Lemma half_open_unreachable_witness :
  allowRequest (record_failures cb_default [1; 2; 3; 4; 5]) 30000000006 = None /\
  Execute (record_failures cb_default [1; 2; 3; 4; 5]) 30000000006 true 30000000007 = None.
Proof.
  destruct (proj2 (half_open_unreachable (mkCBConfig 0 0 0 0) 0 (record_failures cb_default [1; 2; 3; 4; 5])
                     (record_failures_reachable cb_default [1; 2; 3; 4; 5]))
              30000000006 true 30000000007 [] ltac:(vm_compute; reflexivity) ltac:(vm_compute; reflexivity))
    as (H1 & H2 & _).
  split; assumption.
Defined.

End Breaker.

(** ** Float64 facts for the limiter *)

Section FloatFacts.
Import GoFloat.

Lemma div_round_even_exact (c b : Z) : 0 < b -> div_round_even (c * b) b = c.
Proof.
  intros Hb. unfold div_round_even.
  rewrite Z.div_mul, Z.mod_mul by lia.
  replace (2 * 0 ?= b) with Lt by (symmetry; apply Z.compare_lt_iff; lia). reflexivity.
Qed.

Lemma div_round_even_le (a b N : Z) : 0 < b -> a <= N * b -> div_round_even a b <= N.
Proof.
  intros Hb Ha. unfold div_round_even.
  pose proof (Z_div_mod_eq_full a b) as Hdm. pose proof (Z.mod_pos_bound a b Hb) as Hm.
  assert (Hq : a / b <= N) by (apply Z.div_le_upper_bound; lia).
  destruct (Z.eq_dec (a / b) N) as [E|E].
  - assert (Hr : a mod b = 0) by nia.
    rewrite Hr. replace (2 * 0 ?= b) with Lt by (symmetry; apply Z.compare_lt_iff; lia). lia.
  - destruct (2 * (a mod b) ?= b); [destruct (Z.even (a / b))|..]; lia.
Qed.

Lemma div_round_even_nonneg (a b : Z) : 0 < b -> 0 <= a -> 0 <= div_round_even a b.
Proof.
  intros Hb Ha. unfold div_round_even.
  assert (0 <= a / b) by (apply Z.div_pos; lia).
  destruct (2 * (a mod b) ?= b); [destruct (Z.even (a / b))|..]; lia.
Qed.

Lemma flog2_frac_lt1 (a b : Z) : 0 < a < b -> flog2_frac a b <= -1.
Proof.
  intros H. unfold flog2_frac. cbv zeta.
  pose proof (Z.log2_le_mono a b ltac:(lia)) as Hl.
  destruct (Z.leb_spec 0 (Z.log2 a - Z.log2 b)) as [E|E].
  - replace (Z.log2 a - Z.log2 b) with 0 by lia. rewrite Z.pow_0_r.
    destruct (Z.ltb_spec a (b * 1)); lia.
  - destruct (Z.ltb_spec (a * 2 ^ (- (Z.log2 a - Z.log2 b))) b); lia.
Qed.

Lemma flog2_frac_int (n b : Z) : 1 <= n -> 0 < b -> flog2_frac (n * b) b = Z.log2 n.
Proof.
  intros Hn Hb. unfold flog2_frac.
  pose proof (Z.log2_mul_below n b ltac:(lia) Hb) as H1.
  pose proof (Z.log2_mul_above n b ltac:(lia) ltac:(lia)) as H2.
  pose proof (Z.log2_nonneg n) as H3.
  destruct (Z.log2_spec n ltac:(lia)) as [Hs1 Hs2].
  replace (0 <=? Z.log2 (n * b) - Z.log2 b) with true by (symmetry; apply Z.leb_le; lia).
  destruct (Z.eq_dec (Z.log2 (n * b) - Z.log2 b) (Z.log2 n)) as [E|E].
  - rewrite E. replace (n * b <? b * 2 ^ Z.log2 n) with false by (symmetry; apply Z.ltb_ge; nia).
    reflexivity.
  - assert (E' : Z.log2 (n * b) - Z.log2 b = Z.succ (Z.log2 n)) by lia.
    rewrite E'. replace (n * b <? b * 2 ^ Z.succ (Z.log2 n)) with true by (symmetry; apply Z.ltb_lt; nia).
    lia.
Qed.

(** A float holding the integer [n]. *)
Definition is_int_value (x : float64) (n : Z) : Prop :=
  exists m e, x = Fin m e /\ ((0 <= e /\ m * 2 ^ e = n) \/ (e < 0 /\ m = n * 2 ^ (- e))).

(** A float in [0, 1 - 2^-53]. *)
Definition is_small (x : float64) : Prop :=
  exists m e, x = Fin m e /\ 0 <= m /\ m * 2 ^ (Z.max e 0) * 2 ^ 53 <= (2 ^ 53 - 1) * 2 ^ (Z.max (- e) 0).

(** Integers below 2^53 are exact. *)
Lemma round_frac_int (n b : Z) : 0 <= n < 2 ^ 53 -> 0 < b -> is_int_value (round_frac (n * b) b) n.
Proof.
  intros Hn Hb. unfold round_frac.
  destruct (Z.eq_dec n 0) as [->|Hn0].
  - simpl. exists 0, 0. split; [reflexivity|]. left. lia.
  - replace (n * b =? 0) with false by (symmetry; apply Z.eqb_neq; nia).
    replace (n * b <? 0) with false by (symmetry; apply Z.ltb_ge; nia).
    unfold round_pos. rewrite flog2_frac_int by lia.
    assert (HL : Z.log2 n < 53) by (apply Z.log2_lt_pow2; lia).
    pose proof (Z.log2_nonneg n).
    replace (Z.max (Z.log2 n - 52) (-1074)) with (Z.log2 n - 52) by lia.
    destruct (Z.leb_spec 0 (Z.log2 n - 52)) as [H0|H0]; simpl.
    + replace (Z.log2 n - 52) with 0 by lia. rewrite Z.pow_0_r, !Z.mul_1_r, div_round_even_exact by lia.
      replace (2 ^ 1024 <=? n) with false.
      2:{ symmetry. apply Z.leb_gt. lia. }
      exists n, 0. split; [reflexivity|]. left. lia.
    + replace (n * b * 2 ^ (- (Z.log2 n - 52))) with ((n * 2 ^ (- (Z.log2 n - 52))) * b) by ring.
      rewrite div_round_even_exact by lia.
      exists (n * 2 ^ (- (Z.log2 n - 52))), (Z.log2 n - 52). split; [reflexivity|]. right. lia.
Qed.

(** A fraction in [0, 1 - 2^-53] rounds into that interval. *)
Lemma round_frac_small (a b : Z) :
  0 <= a -> 0 < b -> a * 2 ^ 53 <= b * (2 ^ 53 - 1) -> is_small (round_frac a b).
Proof.
  intros Ha Hb Hab. unfold round_frac.
  destruct (Z.eq_dec a 0) as [->|Ha0].
  - simpl. exists 0, 0. repeat split; simpl; lia.
  - replace (a =? 0) with false by (symmetry; apply Z.eqb_neq; lia).
    replace (a <? 0) with false by (symmetry; apply Z.ltb_ge; lia).
    unfold round_pos.
    assert (He : flog2_frac a b <= -1) by (apply flog2_frac_lt1; lia).
    set (qe := Z.max (flog2_frac a b - 52) (-1074)).
    assert (Hq : qe <= -53) by (unfold qe; lia).
    replace (0 <=? qe) with false by (symmetry; apply Z.leb_gt; lia). simpl.
    assert (HK : 2 ^ (- qe) = 2 ^ 53 * 2 ^ (- qe - 53)).
    { rewrite <- Z.pow_add_r by lia. f_equal. lia. }
    assert (HK1 : 1 <= 2 ^ (- qe - 53)) by (pose proof (Z.pow_pos_nonneg 2 (- qe - 53) ltac:(lia) ltac:(lia)); lia).
    pose proof (div_round_even_le (a * 2 ^ (- qe)) b ((2 ^ 53 - 1) * 2 ^ (- qe - 53)) Hb) as Hle.
    pose proof (div_round_even_nonneg (a * 2 ^ (- qe)) b Hb) as Hnn.
    exists (div_round_even (a * 2 ^ (- qe)) b), qe. split; [reflexivity|].
    replace (Z.max qe 0) with 0 by lia. replace (Z.max (- qe) 0) with (- qe) by lia.
    rewrite HK in *. split; [nia|].
    assert (div_round_even (a * (2 ^ 53 * 2 ^ (- qe - 53))) b <= (2 ^ 53 - 1) * 2 ^ (- qe - 53)) by (apply Hle; nia).
    simpl (2 ^ 0). nia.
Qed.

Lemma to_int64_small (x : float64) : is_small x -> to_int64 x = 0.
Proof.
  intros (m & e & -> & Hm & Hb). unfold to_int64.
  destruct (Z.leb_spec 0 e) as [He|He].
  - replace (Z.max e 0) with e in Hb by lia. replace (Z.max (- e) 0) with 0 in Hb by lia.
    simpl in Hb. assert (Hp : 0 < 2 ^ e) by (apply Z.pow_pos_nonneg; lia).
    assert (m * 2 ^ e = 0) by nia. rewrite H. reflexivity.
  - replace (Z.max e 0) with 0 in Hb by lia. replace (Z.max (- e) 0) with (- e) in Hb by lia.
    simpl in Hb. rewrite Z.quot_small by lia. reflexivity.
Qed.

Lemma to_int64_int (x : float64) (n : Z) : is_int_value x n -> - 2 ^ 63 <= n < 2 ^ 63 -> to_int64 x = n.
Proof.
  intros (m & e & -> & [[He Hv] | [He Hv]]) Hr; unfold to_int64.
  - replace (0 <=? e) with true by (symmetry; apply Z.leb_le; lia). rewrite Hv.
    replace (- 2 ^ 63 <=? n) with true by (symmetry; apply Z.leb_le; lia).
    replace (n <? 2 ^ 63) with true by (symmetry; apply Z.ltb_lt; lia). reflexivity.
  - replace (0 <=? e) with false by (symmetry; apply Z.leb_gt; lia). rewrite Hv.
    rewrite Z.quot_mul by (apply Z.pow_nonzero; lia).
    replace (- 2 ^ 63 <=? n) with true by (symmetry; apply Z.leb_le; lia).
    replace (n <? 2 ^ 63) with true by (symmetry; apply Z.ltb_lt; lia). reflexivity.
Qed.

(** int64 of the Seconds of a sub-second duration is 0. *)
Lemma period_seconds_subsecond (P : Z) : 0 < P < 1000000000 -> to_int64 (Seconds P) = 0.
Proof.
  intros HP. unfold Seconds.
  rewrite Z.quot_small, Z.rem_small by lia.
  change (float_of_int 0) with (Fin 0 0).
  unfold float_of_int. rewrite <- (Z.mul_1_r P) at 1.
  destruct (round_frac_int P 1 ltac:(lia) ltac:(lia)) as (m & e & -> & [[He Hv] | [He Hv]]).
  - unfold fdiv_int, to_frac. replace (0 <=? e) with true by (symmetry; apply Z.leb_le; lia).
    rewrite Hv.
    destruct (round_frac_small P (1 * 1000000000) ltac:(lia) ltac:(lia) ltac:(lia))
      as (m' & e' & Hr & Hm' & Hb').
    rewrite Hr. apply to_int64_small.
    unfold fadd. cbv zeta.
    destruct (Z.leb_spec 0 e') as [He'|He'].
    + replace (Z.min 0 e') with 0 by lia. unfold to_frac. simpl (0 <=? 0).
      replace (Z.max e' 0) with e' in Hb' by lia. replace (Z.max (- e') 0) with 0 in Hb' by lia.
      assert (0 <= 2 ^ e') by (apply Z.pow_nonneg; lia).
      replace (0 - 0) with 0 by lia. replace (e' - 0) with e' by lia.
      apply round_frac_small; simpl in *; nia.
    + replace (Z.min 0 e') with e' by lia. unfold to_frac.
      replace (0 <=? e') with false by (symmetry; apply Z.leb_gt; lia).
      replace (Z.max e' 0) with 0 in Hb' by lia. replace (Z.max (- e') 0) with (- e') in Hb' by lia.
      replace (e' - e') with 0 by lia.
      assert (0 < 2 ^ (- e')) by (apply Z.pow_pos_nonneg; lia).
      apply round_frac_small; simpl in *; nia.
  - unfold fdiv_int, to_frac. replace (0 <=? e) with false by (symmetry; apply Z.leb_gt; lia).
    rewrite Hv.
    assert (Hk : 0 < 2 ^ (- e)) by (apply Z.pow_pos_nonneg; lia).
    destruct (round_frac_small (P * 2 ^ (- e)) (2 ^ (- e) * 1000000000) ltac:(nia) ltac:(nia) ltac:(nia))
      as (m' & e' & Hr & Hm' & Hb').
    rewrite Hr. apply to_int64_small.
    unfold fadd. cbv zeta.
    destruct (Z.leb_spec 0 e') as [He'|He'].
    + replace (Z.min 0 e') with 0 by lia. unfold to_frac. simpl (0 <=? 0).
      replace (Z.max e' 0) with e' in Hb' by lia. replace (Z.max (- e') 0) with 0 in Hb' by lia.
      replace (0 - 0) with 0 by lia. replace (e' - 0) with e' by lia.
      assert (0 <= 2 ^ e') by (apply Z.pow_nonneg; lia).
      apply round_frac_small; simpl in *; nia.
    + replace (Z.min 0 e') with e' by lia. unfold to_frac.
      replace (0 <=? e') with false by (symmetry; apply Z.leb_gt; lia).
      replace (Z.max e' 0) with 0 in Hb' by lia. replace (Z.max (- e') 0) with (- e') in Hb' by lia.
      replace (e' - e') with 0 by lia.
      assert (0 < 2 ^ (- e')) by (apply Z.pow_pos_nonneg; lia).
      apply round_frac_small; simpl in *; nia.
Qed.

(** int64 of the Seconds of k whole seconds is k. *)
Lemma period_seconds_whole (k : Z) :
  1 <= k -> k * 1000000000 < 2 ^ 63 -> to_int64 (Seconds (k * 1000000000)) = k.
Proof.
  intros Hk Hr. unfold Seconds.
  rewrite Z.quot_mul, Z.rem_mul by lia.
  change (fdiv_int (float_of_int 0) 1000000000) with (Fin 0 0).
  unfold float_of_int. rewrite <- (Z.mul_1_r k) at 1.
  assert (Hk53 : k < 2 ^ 53) by lia.
  apply to_int64_int; [|lia].
  destruct (round_frac_int k 1 ltac:(lia) ltac:(lia)) as (m & e & -> & [[He Hv] | [He Hv]]);
    unfold fadd; cbv zeta.
  - replace (Z.min e 0) with 0 by lia. unfold to_frac. simpl (0 <=? 0).
    replace (e - 0) with e by lia. replace (0 - 0) with 0 by lia.
    replace (m * 2 ^ e + 0 * 2 ^ 0) with (k * 1) by lia.
    replace (k * 1 * 2 ^ 0) with (k * 1) by (simpl; lia).
    apply round_frac_int; lia.
  - replace (Z.min e 0) with e by lia. unfold to_frac.
    replace (0 <=? e) with false by (symmetry; apply Z.leb_gt; lia).
    replace (e - e) with 0 by lia.
    replace (m * 2 ^ 0 + 0 * 2 ^ (0 - e)) with (k * 2 ^ (- e)) by (simpl; lia).
    apply round_frac_int; [lia|]. apply Z.pow_pos_nonneg; lia.
Qed.

End FloatFacts.

(** ** Rate limiter *)

Section Limiter.
Import GoFloat RateLimit.

(** C4 (code_bug): a positive window shorter than one second passes the
    [Period <= 0] check, truncates to [periodSeconds = 0], and [now %
    periodSeconds] panics: Allow admits nothing and returns nothing. *)
Theorem Allow_subsecond_window_panics (rs : Redis) (down : bool) (now : Z)
    (key : string) (L P : Z) (b : float64) :
  0 < L -> 0 < P < Resilience.Second ->
  Allow rs down now (mkLimitConfig key L P b) = None.
Proof.
  intros HL HP. unfold Allow. simpl.
  replace (L <=? 0) with false by (symmetry; apply Z.leb_gt; lia).
  replace (P <=? 0) with false by (symmetry; apply Z.leb_gt; lia).
  unfold period_seconds. rewrite period_seconds_subsecond by (unfold Resilience.Second in HP; lia).
  reflexivity.
Qed.

Lemma Allow_subsecond_window_panics_witness :
  Allow ∅ false 1700000000 (mkLimitConfig "ip:10.0.0.1" 100 500000000 (Fin 3 (-1))) = None.
Proof.
  apply Allow_subsecond_window_panics; unfold Resilience.Second; lia.
Defined.

(** For a whole number k >= 1 of seconds (the window fitting an int64 of
    nanoseconds) the limiter does what the spec says: a call at [now] in
    the window ending at [e] either starts the counter (key absent or
    expired) or increments the live counter of that window, the counter
    expires at [e], and the call is admitted iff the new count is at most
    int(float64(limit) * burst). *)
Lemma Allow_whole_second_window (rs : Redis) (now : Z) (key : string) (L k : Z) (b : float64)
    (c : Z) :
  0 < L -> 1 <= k -> k * Resilience.Second < 2 ^ 63 ->
  (live_count rs (String.append "ratelimit:" key) now = None /\ c = 1) \/
  (exists c0, live_count rs (String.append "ratelimit:" key) now
                = Some (c0, Some (now - Z.rem now k + k)) /\ c = c0 + 1) ->
  Allow rs false now (mkLimitConfig key L (k * Resilience.Second) b)
  = Some (<[String.append "ratelimit:" key := (c, Some (now - Z.rem now k + k))]> rs,
          mkAllowResult (c <=? burst_limit L (burst_factor b)) L (L - c)
                        ((now - Z.rem now k + k - now) * Resilience.Second) None).
Proof.
  intros HL Hk Hr Hprev. unfold Allow. simpl.
  replace (L <=? 0) with false by (symmetry; apply Z.leb_gt; lia).
  replace (k * Resilience.Second <=? 0) with false
    by (symmetry; apply Z.leb_gt; unfold Resilience.Second; lia).
  unfold period_seconds, Resilience.Second in *. rewrite period_seconds_whole by lia.
  unfold go_rem. replace (k =? 0) with false by (symmetry; apply Z.eqb_neq; lia).
  unfold script.
  destruct Hprev as [[Hn ->] | (c0 & Hs & ->)].
  - rewrite Hn. reflexivity.
  - rewrite Hs. destruct (c0 + 1 =? 1); reflexivity.
Qed.

(** C5: invalid input (limit <= 0 or window <= 0) and a store that
    answers the script with an error both give admitted = true with a
    non-nil error; the store is consulted only when the window truncates
    to a non-zero number of seconds. *)
Theorem Allow_fails_open (rs : Redis) (down : bool) (now : Z) (config : LimitConfig) :
  ((Limit config <= 0 \/ Period config <= 0) ->
   exists r, Allow rs down now config = Some (rs, r) /\ allowed r = true /\ err r <> None) /\
  (down = true -> period_seconds (Period config) <> 0 ->
   exists r, Allow rs down now config = Some (rs, r) /\ allowed r = true /\ err r <> None).
Proof.
  unfold Allow. split.
  - intros Hinv.
    destruct (Limit config <=? 0) eqn:E1; [eexists; split; [reflexivity | simpl; split; congruence]|].
    destruct (Period config <=? 0) eqn:E2; [eexists; split; [reflexivity | simpl; split; congruence]|].
    apply Z.leb_gt in E1, E2. lia.
  - intros Hdown Hq.
    destruct (Limit config <=? 0); [eexists; split; [reflexivity | simpl; split; congruence]|].
    destruct (Period config <=? 0); [eexists; split; [reflexivity | simpl; split; congruence]|].
    unfold go_rem. replace (period_seconds (Period config) =? 0) with false
      by (symmetry; apply Z.eqb_neq; exact Hq).
    rewrite Hdown. eexists; split; [reflexivity | simpl; split; congruence].
Qed.

Lemma Allow_fails_open_witness :
  exists r, Allow ∅ true 1700000000 (mkLimitConfig "ip:10.0.0.1" 100 (60 * Resilience.Second) (Fin 3 (-1)))
            = Some (∅, r) /\ allowed r = true /\ err r <> None.
Proof.
  apply (proj2 (Allow_fails_open ∅ true 1700000000
                  (mkLimitConfig "ip:10.0.0.1" 100 (60 * Resilience.Second) (Fin 3 (-1))))).
  - reflexivity.
  - vm_compute. discriminate.
Defined.

End Limiter.

(** ** Proxy director *)

Section Forwarding.
Import Proxy.

Definition route_users : Route := mkRoute "/api/users" "http://u:9000" ["GET"] [] true [].
Definition target_users : URL := mkURL "http" "u:9000".

(** The inbound request of scenario E1: net/http's RemoteAddr for client
    10.0.0.1 carries the client's source port. *)
Definition req_e1 : Request :=
  mkRequest "GET" "" "" "/api/users" "" "10.0.0.1:54321" "gw.example" ∅.

(** C9 (code_bug): the director sets X-Forwarded-For to RemoteAddr
    ("10.0.0.1:54321"), and the outbound request then carries
    "10.0.0.1:54321, 10.0.0.1", not "10.0.0.1"; Host and X-Forwarded-Host
    are rewritten as described; this holds whatever the tracing state the
    director injects. *)
Theorem forwarded_for_is_remote_addr (tc : TraceCtx) :
  HeaderGet (Header (Director tc target_users route_users req_e1 req_e1)) "X-Forwarded-For"
    = "10.0.0.1:54321" /\
  HeaderGet (Header (outbound tc target_users route_users req_e1)) "X-Forwarded-For"
    = "10.0.0.1:54321, 10.0.0.1" /\
  HeaderGet (Header (outbound tc target_users route_users req_e1)) "X-Forwarded-Host"
    = "gw.example" /\
  Host (outbound tc target_users route_users req_e1) = "u:9000".
Proof.
  destruct tc as [v tid sid smp ts bg].
  unfold outbound, Director, Inject, TraceContext_Inject, Baggage_Inject.
  cbn [tc_valid tc_trace_id tc_span_id tc_sampled tc_tracestate tc_baggage].
  destruct v, (String.eqb ts EmptyString), (String.eqb bg EmptyString), smp;
    vm_compute; auto.
Qed.

End Forwarding.

(** ** Request-path handler *)

Section RequiredHeadersCheck.
Import Proxy Handler.








End RequiredHeadersCheck.

(* ===================================================================== *)
(** * Further properties of the modelled code *)
(* ===================================================================== *)

(** ** Path matching: trailing wildcards *)

Lemma prefix_append (p t : string) : String.prefix p (String.append p t) = true.
Proof.
  induction p as [|a p IH]; simpl; [destruct t; reflexivity|].
  destruct (ascii_dec a a); [exact IH | congruence].
Qed.

Lemma substring_append_len (p t : string) (m : nat) :
  String.substring (String.length p) m (String.append p t) = String.substring 0 m t.
Proof. induction p as [|a p IH]; simpl; [reflexivity | exact IH]. Qed.

Lemma substring_append_front (p t : string) :
  String.substring 0 (String.length p) (String.append p t) = p.
Proof. induction p as [|a p IH]; simpl; [destruct t; reflexivity | rewrite IH; reflexivity]. Qed.

Lemma length_append_str (p t : string) :
  String.length (String.append p t) = (String.length p + String.length t)%nat.
Proof. induction p as [|a p IH]; simpl; [reflexivity | rewrite IH; reflexivity]. Qed.

(** A pattern p/* matches exactly the request paths that start with the
    characters of p: the prefix test is not aligned on segments, so /api/*
    also matches /apiary and /api itself. *)
Theorem MatchRoutePath_wildcard (p R : string) :
  MatchRoutePath (String.append p "/*") R = HasPrefix R p.
Proof.
  assert (Hs : HasSuffix (String.append p "/*") "/*" = true).
  { unfold HasSuffix. rewrite length_append_str. cbv zeta.
    change (String.length "/*") with 2%nat.
    replace (String.length p + 2 - 2)%nat with (String.length p) by lia.
    rewrite substring_append_len. apply andb_true_iff; split; [apply Nat.leb_le; lia | reflexivity]. }
  assert (Ht : TrimSuffix (String.append p "/*") "/*" = p).
  { unfold TrimSuffix. rewrite Hs, length_append_str.
    change (String.length "/*") with 2%nat.
    replace (String.length p + 2 - 2)%nat with (String.length p) by lia.
    apply substring_append_front. }
  unfold MatchRoutePath. rewrite Hs, Ht.
  destruct (String.eqb (String.append p "/*") R) eqn:E; [|reflexivity].
  apply String.eqb_eq in E. subst R. symmetry. apply prefix_append.
Qed.

(** ** Catalogue read-through and invalidation *)

Lemma route_key_ne_routes (q : string) : route_key q <> "routes".
Proof. unfold route_key. simpl. intros H. inversion H. Qed.

Lemma route_key_inj (p q : string) : route_key p = route_key q -> p = q.
Proof. unfold route_key. simpl. intros H. inversion H. simpl in *. assumption. Qed.

(** Read-through round trip: once GetRouteByPath has answered a path from
    a reachable cache's service, asking again answers the same route from
    the cache, without reading the store and without changing the state. *)
Theorem GetRouteByPath_read_through (s s' : Service) (p : string) (r : Route) :
  reachable (cache s) = true ->
  GetRouteByPath s p = (s', Ok r) ->
  GetRouteByPath s' p = (s', Ok r).
Proof.
  intros Hr. unfold GetRouteByPath.
  destruct (cache_get_route (cache s) (route_key p)) as [x| |] eqn:Hc.
  - intros [= <- <-]. rewrite Hc. reflexivity.
  - destruct (repo_GetRoutes (repo s)); [|discriminate].
    destruct (first_match a p) eqn:Hf; [|discriminate].
    unfold cache_set. rewrite Hr. intros [= <- <-].
    unfold cache_get_route. simpl. rewrite lookup_insert_eq. reflexivity.
  - destruct (repo_GetRoutes (repo s)); [|discriminate].
    destruct (first_match a p) eqn:Hf; [|discriminate].
    unfold cache_set. rewrite Hr. intros [= <- <-].
    unfold cache_get_route. simpl. rewrite lookup_insert_eq. reflexivity.
Qed.

Lemma GetRouteByPath_read_through_witness :
  GetRouteByPath (fst (GetRouteByPath (svc_of [r_wild]) "/a/b")) "/a/b"
    = (fst (GetRouteByPath (svc_of [r_wild]) "/a/b"), Ok r_wild).
Proof. apply (GetRouteByPath_read_through (svc_of [r_wild])); vm_compute; reflexivity. Defined.

(** The same round trip for the full list under "routes". *)
Theorem GetRoutes_read_through (s s' : Service) (rs : list Route) :
  reachable (cache s) = true ->
  GetRoutes s = (s', Ok rs) ->
  GetRoutes s' = (s', Ok rs).
Proof.
  intros Hr. unfold GetRoutes.
  destruct (cache_get_routes (cache s) "routes") as [x| |] eqn:Hc.
  - intros [= <- <-]. rewrite Hc. reflexivity.
  - destruct (repo_GetRoutes (repo s)); [|discriminate].
    unfold cache_set. rewrite Hr. intros [= <- <-].
    unfold cache_get_routes. simpl. rewrite lookup_insert_eq. reflexivity.
  - discriminate.
Qed.

Lemma GetRoutes_read_through_witness :
  GetRoutes (fst (GetRoutes (svc_of [r_wild]))) = (fst (GetRoutes (svc_of [r_wild])), Ok [r_wild]).
Proof. apply (GetRoutes_read_through (svc_of [r_wild])); vm_compute; reflexivity. Defined.

(** After AddRoute succeeds on a reachable cache, the next GetRoutes reads
    the store again: the active rows, with the new route stored active
    (GORM's [default:true] replaces a false IsActive on Create) at the
    position the unordered query returns it. *)
Theorem AddRoute_then_GetRoutes (s s' : Service) (r : Route) (pos : nat) :
  reachable (cache s) = true ->
  AddRoute s r pos = (s', Ok tt) ->
  snd (GetRoutes s') =
    Ok (filter (fun x => IsActive x = true)
          (take pos (rows (repo s)) ++
           mkRoute (Path r) (ServiceURL r) (Methods r) (Headers r) true (RequiredHeaders r)
             :: drop pos (rows (repo s)))).
Proof.
  intros Hr. unfold AddRoute, repo_AddRoute.
  destruct (negb (db_up (repo s))) eqn:Hdb; [discriminate|].
  destruct (existsb _ (rows (repo s))); [discriminate|].
  unfold cache_delete. rewrite Hr. intros [= <-].
  unfold GetRoutes, cache_get_routes. simpl. rewrite lookup_delete_eq.
  unfold repo_GetRoutes. simpl. reflexivity.
Qed.

Lemma AddRoute_then_GetRoutes_witness :
  snd (GetRoutes (fst (AddRoute (svc_of [r_wild]) r_exact 0))) = Ok [r_exact; r_wild].
Proof.
  rewrite (AddRoute_then_GetRoutes (svc_of [r_wild]) (fst (AddRoute (svc_of [r_wild]) r_exact 0)) r_exact 0)
    by (vm_compute; reflexivity).
  vm_compute. reflexivity.
Defined.

(** After UpdateRoute or DeleteRoute succeeds on a reachable cache, the
    next GetRouteByPath of the mutated path is resolved by the updated store,
    not by the cache. *)
Theorem mutation_then_lookup_reads_store (s s' : Service) (r : Route) (p : string) :
  reachable (cache s) = true ->
  (UpdateRoute s r = (s', Ok tt) -> snd (GetRouteByPath s' (Path r)) = store_resolve (repo s') (Path r)) /\
  (DeleteRoute s p = (s', Ok tt) -> snd (GetRouteByPath s' p) = store_resolve (repo s') p).
Proof.
  intros Hr. split.
  - intros Hu. destruct (UpdateRoute_invalidates_both s s' r Hr Hu) as [H1 _].
    unfold GetRouteByPath, cache_get_route. rewrite H1.
    destruct (reachable (cache s')); simpl; unfold store_resolve;
      destruct (repo_GetRoutes (repo s')); try reflexivity;
      destruct (first_match _ _); try reflexivity;
      destruct (cache_set _ _ _); reflexivity.
  - intros Hd. destruct (DeleteRoute_invalidates_both s s' p Hr Hd) as [H1 _].
    unfold GetRouteByPath, cache_get_route. rewrite H1.
    destruct (reachable (cache s')); simpl; unfold store_resolve;
      destruct (repo_GetRoutes (repo s')); try reflexivity;
      destruct (first_match _ _); try reflexivity;
      destruct (cache_set _ _ _); reflexivity.
Qed.

Lemma mutation_then_lookup_reads_store_witness :
  snd (GetRouteByPath (fst (DeleteRoute svc_cached_wild "/a/*")) "/a/*") = Error ErrRouteNotFound.
Proof.
  rewrite (proj2 (mutation_then_lookup_reads_store svc_cached_wild
                    (fst (DeleteRoute svc_cached_wild "/a/*")) r_wild "/a/*" eq_refl)
             ltac:(vm_compute; reflexivity)).
  vm_compute. reflexivity.
Defined.

(** With the cache unreachable, GetRouteByPath answers every path from the
    store alone (cache errors on read and on write are only logged), and
    the service state is unchanged. *)
Theorem GetRouteByPath_cache_down (s : Service) (p : string) :
  reachable (cache s) = false ->
  GetRouteByPath s p = (s, store_resolve (repo s) p).
Proof.
  intros Hr. unfold GetRouteByPath, cache_get_route, store_resolve. rewrite Hr. simpl.
  destruct (repo_GetRoutes (repo s)) as [routes|e]; [|reflexivity].
  destruct (first_match routes p); [|reflexivity].
  unfold cache_set. rewrite Hr. destruct s; reflexivity.
Qed.

Lemma GetRouteByPath_cache_down_witness :
  GetRouteByPath (mkService (mkStore [r_wild] true) (mkCache ∅ false)) "/a/b/c"
  = (mkService (mkStore [r_wild] true) (mkCache ∅ false), Ok r_wild).
Proof.
  rewrite (GetRouteByPath_cache_down (mkService (mkStore [r_wild] true) (mkCache ∅ false)) "/a/b/c" eq_refl). vm_compute. reflexivity.
Defined.

(** DeleteRoute(p) drops only route:p: a path q <> p that the cache had
    resolved keeps being answered from the cache, even with the deleted
    route. *)
Theorem DeleteRoute_keeps_other_entries (s s' : Service) (p q : string) (r : Route) :
  reachable (cache s) = true ->
  DeleteRoute s p = (s', Ok tt) ->
  q <> p ->
  entries (cache s) !! route_key q = Some (CRoute r) ->
  GetRouteByPath s' q = (s', Ok r).
Proof.
  intros Hr. unfold DeleteRoute. destruct (repo_DeleteRoute (repo s) p); [|discriminate].
  unfold cache_delete. rewrite Hr. simpl. intros [= <-] Hne Hq.
  unfold GetRouteByPath, cache_get_route. simpl.
  rewrite lookup_delete_ne by (apply not_eq_sym, route_key_ne_routes).
  rewrite lookup_delete_ne by (intros E; apply Hne; apply route_key_inj; symmetry; exact E).
  rewrite Hq. reflexivity.
Qed.

Lemma DeleteRoute_keeps_other_entries_witness :
  snd (GetRouteByPath (fst (DeleteRoute svc_cached_wild "/a/*")) "/a/b") = Ok r_wild.
Proof.
  rewrite (DeleteRoute_keeps_other_entries svc_cached_wild (fst (DeleteRoute svc_cached_wild "/a/*"))
             "/a/*" "/a/b" r_wild); try reflexivity.
  - discriminate.
Defined.

Lemma fold_delete_lookup (routes : list Route) (c : Cache) (k : string) :
  reachable c = true ->
  reachable (fold_left (fun c r => fst (cache_delete c (route_key (Path r)))) routes c) = true /\
  entries (fold_left (fun c r => fst (cache_delete c (route_key (Path r)))) routes c) !! k
    = if bool_decide (k ∈ map (fun r => route_key (Path r)) routes) then None else entries c !! k.
Proof.
  revert c. induction routes as [|r0 routes IH]; intros c Hr; cbn [fold_left map].
  - split; [exact Hr|]. rewrite bool_decide_false; [reflexivity | apply not_elem_of_nil].
  - assert (Hc : fst (cache_delete c (route_key (Path r0)))
                 = mkCache (delete (route_key (Path r0)) (entries c)) true)
      by (unfold cache_delete; rewrite Hr; reflexivity).
    rewrite Hc.
    destruct (IH (mkCache (delete (route_key (Path r0)) (entries c)) true) eq_refl) as [H1 H2].
    split; [exact H1|]. rewrite H2. cbn [entries].
    destruct (decide (k = route_key (Path r0))) as [->|Hne].
    + rewrite lookup_delete_eq.
      rewrite (bool_decide_true (route_key (Path r0) ∈ _ :: _)) by (left).
      destruct (bool_decide _); reflexivity.
    + rewrite lookup_delete_ne by congruence.
      destruct (bool_decide (k ∈ map _ routes)) eqn:E1.
      * apply bool_decide_eq_true in E1.
        rewrite bool_decide_true by (right; exact E1). reflexivity.
      * apply bool_decide_eq_false in E1.
        rewrite bool_decide_false; [reflexivity|].
        intros Hin. apply elem_of_cons in Hin as [?|?]; contradiction.
Qed.

(** A successful ClearCache removes "routes" and route:<path> for the path
    of every active stored route, and nothing else: an entry cached under
    a request path that only matched a pattern survives. *)
Theorem ClearCache_entries (s s' : Service) (k : string) :
  ClearCache s = (s', Ok tt) ->
  entries (cache s') !! k =
    if bool_decide (k = "routes" \/
                    k ∈ map (fun r => route_key (Path r)) (filter (fun x => IsActive x = true) (rows (repo s))))
    then None else entries (cache s) !! k.
Proof.
  unfold ClearCache.
  destruct (reachable (cache s)) eqn:Hr;
    [|unfold cache_delete at 1; rewrite Hr; discriminate].
  assert (Hc : cache_delete (cache s) "routes" = (mkCache (delete "routes" (entries (cache s))) true, false))
    by (unfold cache_delete; rewrite Hr; reflexivity).
  rewrite Hc. unfold repo_GetRoutes. destruct (db_up (repo s)); [|discriminate].
  intros [= <-]. cbn [cache].
  destruct (fold_delete_lookup (filter (fun x => IsActive x = true) (rows (repo s)))
              (mkCache (delete "routes" (entries (cache s))) true) k eq_refl) as [_ H].
  rewrite H. simpl.
  destruct (decide (k = "routes")) as [->|Hne].
  - rewrite lookup_delete_eq. rewrite (bool_decide_true (_ \/ _)) by (left; reflexivity).
    destruct (bool_decide _); reflexivity.
  - rewrite lookup_delete_ne by congruence.
    destruct (bool_decide (k ∈ _)) eqn:E1.
    + apply bool_decide_eq_true in E1. rewrite bool_decide_true by (right; exact E1). reflexivity.
    + apply bool_decide_eq_false in E1. rewrite bool_decide_false; [reflexivity|].
      intros [?|?]; contradiction.
Qed.

Lemma ClearCache_entries_witness :
  entries (cache (fst (ClearCache svc_cached_wild))) !! route_key "/a/b" = Some (CRoute r_wild).
Proof.
  rewrite (ClearCache_entries svc_cached_wild (fst (ClearCache svc_cached_wild)) (route_key "/a/b"))
    by (vm_compute; reflexivity).
  vm_compute. reflexivity.
Defined.

(** ** Circuit breaker: invariants and locking *)

Section BreakerMore.

Import Resilience.

Definition cb_inv (cb : CircuitBreaker) : Prop :=
  1 <= maxFails cb /\ 1 <= maxRequests cb /\ 1 <= timeout cb /\ halfOpenRequests cb = 0 /\
  (state cb = StateClose -> 0 <= failCount cb < maxFails cb) /\
  (state cb = StateOpen -> nextAttemptTime cb = lastStateChangeTime cb + timeout cb).

Lemma cb_inv_new (config : CircuitBreakerConfig) (now : Z) : cb_inv (NewCircuitBreaker config now).
Proof.
  unfold cb_inv, NewCircuitBreaker; simpl.
  repeat split; try discriminate;
    repeat match goal with |- context [if ?c then _ else _] => destruct c eqn:? end;
    unfold Second in *; lia.
Qed.

Lemma cb_inv_step (cb cb' : CircuitBreaker) : cb_inv cb -> cb_step cb cb' -> cb_inv cb'.
Proof.
  intros Hi Hs. pose proof Hi as (H1 & H2 & H3 & H4 & H5 & H6).
  destruct Hs as [cb now b cb' Ha|cb ok now|cb now].
  - unfold allowRequest in Ha. destruct (state cb) eqn:Hst.
    + injection Ha as _ <-. exact Hi.
    + destruct (now >? nextAttemptTime cb); [discriminate|].
      injection Ha as _ <-. exact Hi.
    + injection Ha as _ <-. exact Hi.
  - unfold recordResult. destruct (state cb) eqn:Hst; [| exact Hi |].
    + destruct ok; simpl.
      * unfold cb_inv, set_failCount; simpl. rewrite Hst.
        repeat split; auto; try lia; discriminate.
      * destruct (failCount cb + 1 >=? maxFails cb) eqn:E.
        -- unfold cb_inv, toOpen, set_failCount; simpl. repeat split; auto; discriminate.
        -- rewrite Z.geb_leb, Z.leb_gt in E. specialize (H5 eq_refl).
           unfold cb_inv, set_failCount; simpl. rewrite Hst.
           repeat split; auto; try lia; discriminate.
    + destruct ok; unfold cb_inv, toClose, toOpen; simpl; repeat split; auto; try lia; discriminate.
  - unfold cb_inv, toClose; simpl. repeat split; auto; try lia; discriminate.
Qed.

(** Every breaker reachable from NewCircuitBreaker by admission checks,
    recorded outcomes and resets has at least one allowed failure, one
    half-open slot and a positive timeout, never counts a half-open
    request, keeps a closed breaker's failure count in [0, maxFails), and
    keeps an open breaker's retry instant at its opening instant plus the
    timeout. *)
Theorem breaker_reachable_invariant (config : CircuitBreakerConfig) (now : Z) (cb : CircuitBreaker) :
  rtc cb_step (NewCircuitBreaker config now) cb -> cb_inv cb.
Proof.
  intros H. remember (NewCircuitBreaker config now) as cb0 eqn:E.
  assert (Hi : cb_inv cb0) by (subst; apply cb_inv_new). clear E.
  induction H as [x|x y z Hxy _ IH]; [exact Hi|]. apply IH. exact (cb_inv_step x y Hi Hxy).
Qed.

Lemma breaker_reachable_invariant_witness :
  cb_inv (recordResult (NewCircuitBreaker (mkCBConfig 0 0 0 0) 0) false 1).
Proof.
  apply (breaker_reachable_invariant (mkCBConfig 0 0 0 0) 0).
  apply rtc_once. apply cb_step_record.
Defined.

End BreakerMore.

Section Locks.

Import Sync Resilience Locking.

(** On a mutex no other goroutine holds, allowRequest's lock operations
    end in Go's fatal "RUnlock of unlocked RWMutex" exactly when the breaker
    is open and its retry instant has passed (the deferred RUnlock runs
    after the deferred Unlock has released the write lock); on every other
    path they leave the mutex unlocked. An open breaker therefore never
    gets back to half-open without crashing the process. *)
Theorem allowRequest_open_path_fatal (cb : CircuitBreaker) (now : Z) :
  rw_run unlocked (allowRequest_locks cb now) =
    if (CircuitState_eqb (state cb) StateOpen && (now >? nextAttemptTime cb))%bool
    then SFatal "sync: RUnlock of unlocked RWMutex"
    else SOk unlocked.
Proof.
  unfold allowRequest_locks.
  destruct (state cb); simpl; try reflexivity.
  destruct (now >? nextAttemptTime cb); reflexivity.
Qed.

(** recordResult and Reset leave an unheld mutex unheld. *)
Lemma recordResult_locks_release : rw_run unlocked recordResult_locks = SOk unlocked.
Proof. reflexivity. Qed.

End Locks.

(** ** Proxy: breaker registry and what the breaker sees *)

Section ProxyMore.

Import Resilience ProxyFlow.

(** getCircuitBreaker creates a missing breaker closed, with the defaulted
    5 allowed failures, 5 half-open slots and a 30 s timeout, and stores
    it; a second lookup of the same URL returns that breaker and leaves
    the registry as it is; other URLs' entries are untouched. *)
Theorem getCircuitBreaker_lazy (reg : Registry) (u v : string) (now now' : Z) :
  let '(reg1, cb) := getCircuitBreaker reg u now in
  (reg !! u = None ->
     state cb = StateClose /\ failCount cb = 0 /\ maxFails cb = 5 /\ maxRequests cb = 5 /\
     timeout cb = 30 * Second) /\
  reg1 !! u = Some cb /\
  getCircuitBreaker reg1 u now' = (reg1, cb) /\
  (v <> u -> reg1 !! v = reg !! v).
Proof.
  unfold getCircuitBreaker.
  destruct (reg !! u) as [cb|] eqn:Hu.
  - rewrite Hu. split; [discriminate|]. split; [reflexivity|]. split; reflexivity.
  - split; [intros _; repeat split; reflexivity|].
    split; [apply lookup_insert_eq|].
    split; [rewrite lookup_insert_eq; reflexivity|].
    intros Hne. rewrite lookup_insert_ne by congruence. reflexivity.
Qed.

Lemma execute_success_keeps_clean (cb : CircuitBreaker) :
  state cb = StateClose -> failCount cb = 0 ->
  forall ta td, Execute cb ta true td = Some (cb, Ran true).
Proof.
  intros Hs Hf ta td. unfold Execute, allowRequest. rewrite Hs. simpl.
  unfold recordResult. rewrite Hs. simpl. unfold set_failCount. rewrite <- Hf.
  destruct cb; simpl in *; subst; reflexivity.
Qed.

(** doProxy reports an error only when the service URL does not parse:
    upstream transport errors and 5xx answers are written to the client by
    the error handler or the upstream and reach the breaker as successes.
    Hence a breaker that is closed with no failures (or not created yet)
    stays so over any run of proxied requests whose URL parses, the run
    completes, every request reaches the upstream, and each writes the
    upstream's status or the status ErrorHandler picks. *)
Theorem proxy_errors_never_trip (reg : Registry) (route : Route) (calls : list (Upstream * Z * Z)) :
  (forall cb, reg !! ServiceURL route = Some cb -> state cb = StateClose /\ failCount cb = 0) ->
  exists reg' outs, proxy_seq reg route true calls = Some (reg', outs) /\
  (forall cb, reg' !! ServiceURL route = Some cb -> state cb = StateClose /\ failCount cb = 0) /\
  outs = map (fun c => (Some (fst (doProxy true c.1.1)), None)) calls.
Proof.
  revert reg. induction calls as [|[[up ta] td] calls IH]; intros reg Hreg.
  - exists reg, []. split; [reflexivity|]. split; [exact Hreg | reflexivity].
  - cbn [proxy_seq]. unfold ProxyRequest.
    destruct (getCircuitBreaker reg (ServiceURL route) ta) as [reg1 cb] eqn:Hg.
    assert (Hcb : state cb = StateClose /\ failCount cb = 0).
    { unfold getCircuitBreaker in Hg. destruct (reg !! ServiceURL route) as [c|] eqn:Hl.
      - injection Hg as <- <-. apply Hreg. reflexivity.
      - injection Hg as <- <-. split; reflexivity. }
    destruct Hcb as [Hs Hf].
    assert (Hd : snd (doProxy true up) = false) by (destruct up; reflexivity).
    destruct (doProxy true up) as [st failed] eqn:Hdp. simpl in Hd. subst failed.
    cbn [negb]. rewrite (execute_success_keeps_clean cb Hs Hf ta td).
    destruct (IH (<[ServiceURL route := cb]> reg1)) as (reg2 & outs & Hp & IH1 & IH2).
    { intros c Hc. rewrite lookup_insert_eq in Hc. injection Hc as <-. split; assumption. }
    rewrite Hp. exists reg2, ((Some st, None) :: outs).
    split; [reflexivity|]. split; [exact IH1|].
    rewrite IH2. simpl. rewrite Hdp. reflexivity.
Qed.

Lemma proxy_errors_never_trip_witness :
  let r := mkRoute "/api/*" "http://users:8080" ["GET"] [] true [] in
  let calls := [(UpTransportError "dial tcp: connect: connection refused", 1, 2);
                (UpTransportError "dial tcp: connect: connection refused", 3, 4);
                (UpTransportError "dial tcp: connect: connection refused", 5, 6);
                (UpTransportError "dial tcp: connect: connection refused", 7, 8);
                (UpTransportError "dial tcp: connect: connection refused", 9, 10);
                (UpResponse 500, 11, 12)] in
  exists reg' outs, proxy_seq ∅ r true calls = Some (reg', outs) /\
  (forall cb, reg' !! "http://users:8080" = Some cb -> state cb = StateClose /\ failCount cb = 0) /\
  outs = map (fun c => (Some (fst (doProxy true c.1.1)), None)) calls.
Proof.
  intros r calls. apply (proxy_errors_never_trip ∅ r calls).
  intros cb Hcb. rewrite lookup_empty in Hcb. discriminate.
Defined.

End ProxyMore.

(** ** Rate limiter: windows, bounds and failing open *)

Section LimiterMore.

Import GoFloat RateLimit.


Lemma window_end (w k t : Z) :
  1 <= k -> 0 <= w -> Z.rem w k = 0 -> w <= t < w + k -> t - Z.rem t k + k = w + k.
Proof.
  intros Hk Hw Hr Ht.
  rewrite Z.rem_mod_nonneg in Hr by lia. rewrite Z.rem_mod_nonneg by lia.
  assert (Hw' : w = k * (w / k)) by (pose proof (Z_div_mod_eq_full w k); lia).
  assert (E : t mod k = t - w).
  { symmetry. apply (Z.mod_unique t k (w / k)); [left; lia | lia]. }
  lia.
Qed.




(** The IP limiter (100 a minute, burst 1.5) on the i-th request of an
    aligned minute from an IP that is not blocked, Redis up: requests 1 to
    150 go on, 151 to 200 get 429 with Retry-After the seconds left in the
    minute, and from the 201st on the IP is blocked for 10 minutes. *)
Theorem IPRateLimit_thresholds (rs : Redis) (ip : string) (w t j : Z) :
  0 <= w -> Z.rem w 60 = 0 -> w <= t < w + 60 -> 0 <= j ->
  live_count rs (String.append "ratelimit:" ip) t = (if j =? 0 then None else Some (j, Some (w + 60))) ->
  IPRateLimit rs false t ip false =
    Some (<[String.append "ratelimit:" ip := (j + 1, Some (w + 60))]> rs,
          if j + 1 <=? 150 then IPNext
          else if j + 1 <=? 200 then IPReject (w + 60 - t)
          else IPBlockNow).
Proof.
  intros Hw Hr Ht Hj Hl.
  pose proof (window_end w 60 t ltac:(lia) Hw Hr Ht) as He.
  unfold IPRateLimit, ip_config.
  rewrite (Allow_whole_second_window rs t ip 100 60 (Fin 3 (-1)) (j + 1)); try lia.
  2:{ unfold Resilience.Second; lia. }
  2:{ rewrite He, Hl. destruct (Z.eqb_spec j 0) as [->|Hj0].
      - left. split; reflexivity.
      - right. exists j. split; reflexivity. }
  rewrite He. cbn [err allowed remaining resetAfter].
  replace (burst_limit 100 (burst_factor (Fin 3 (-1)))) with 150 by (vm_compute; reflexivity).
  rewrite Z.quot_mul by (unfold Resilience.Second; lia).
  destruct (Z.leb_spec (j + 1) 150); simpl.
  - reflexivity.
  - destruct (Z.leb_spec (j + 1) 200); simpl.
    + replace (100 - (j + 1) <? -100) with false by (symmetry; apply Z.ltb_ge; lia). reflexivity.
    + replace (100 - (j + 1) <? -100) with true by (symmetry; apply Z.ltb_lt; lia). reflexivity.
Qed.

Lemma IPRateLimit_thresholds_witness :
  IPRateLimit (<[String.append "ratelimit:" "10.0.0.1" := (150, Some 180)]> ∅) false 170 "10.0.0.1" false
  = Some (<[String.append "ratelimit:" "10.0.0.1" := (151, Some 180)]>
            (<[String.append "ratelimit:" "10.0.0.1" := (150, Some 180)]> ∅), IPReject 10).
Proof.
  rewrite (IPRateLimit_thresholds _ "10.0.0.1" 120 170 150); try lia; reflexivity.
Defined.

End LimiterMore.

(** ** Director and ServeAPI *)

Section DirectorMore.

Import Proxy Handler.

Lemma HeaderSet_lookup_eq (h : HttpHeader) (k v : string) :
  HeaderSet h k v !! CanonicalMIMEHeaderKey k = Some [v].
Proof. unfold HeaderSet. apply lookup_insert_eq. Qed.

Lemma HeaderSet_lookup_ne (h : HttpHeader) (k v n : string) :
  CanonicalMIMEHeaderKey k <> n -> HeaderSet h k v !! n = h !! n.
Proof. intros Hne. unfold HeaderSet. apply lookup_insert_ne. exact Hne. Qed.

Lemma copy_headers_lookup (names : list string) (inbound h : HttpHeader) (n : string) :
  copy_headers names inbound h !! n =
    if (existsb (fun m => String.eqb (CanonicalMIMEHeaderKey m) n) names &&
        negb (String.eqb (first_value (inbound !! n)) EmptyString))%bool
    then Some [first_value (inbound !! n)] else h !! n.
Proof.
  revert h. induction names as [|m names IH]; intros h; cbn [copy_headers existsb]; [reflexivity|].
  rewrite IH.
  destruct (String.eqb_spec (CanonicalMIMEHeaderKey m) n) as [Hc|Hc]; cbn [orb].
  - unfold HeaderGet. rewrite Hc.
    destruct (String.eqb (first_value (inbound !! n)) EmptyString); cbn [negb andb].
    + rewrite andb_false_r. reflexivity.
    + rewrite andb_true_r. destruct (existsb _ names); [reflexivity|].
      rewrite <- Hc. apply HeaderSet_lookup_eq.
  - destruct (_ && _)%bool; [reflexivity|].
    destruct (String.eqb (HeaderGet inbound m) EmptyString); [reflexivity|].
    apply HeaderSet_lookup_ne. exact Hc.
Qed.

Lemma Inject_lookup_other (tc : TraceCtx) (h : HttpHeader) (n : string) :
  n <> "Traceparent" -> n <> "Tracestate" -> n <> "Baggage" -> Inject tc h !! n = h !! n.
Proof.
  intros H1 H2 H3. unfold Inject, Baggage_Inject, TraceContext_Inject.
  destruct (String.eqb (tc_baggage tc) EmptyString);
    [|rewrite HeaderSet_lookup_ne by (vm_compute; congruence)];
  (destruct (negb (tc_valid tc)); [reflexivity|]);
  rewrite HeaderSet_lookup_ne by (vm_compute; congruence);
  (destruct (String.eqb (tc_tracestate tc) EmptyString); [reflexivity|]);
  rewrite HeaderSet_lookup_ne by (vm_compute; congruence); reflexivity.
Qed.

(** The director sends the inbound request's method, path and query to the
    target's scheme and host (also as Host). For a header key (in its
    canonical form) other than the trace keys: when some header the route
    lists has that canonical key and the inbound value is non-empty, it
    carries the inbound value; otherwise X-Forwarded-Host is the inbound
    Host, X-Forwarded-For the inbound RemoteAddr, and any other header is
    left as the clone had it. With a valid span context the request also
    carries the trace and span IDs under X-Trace-Id and X-Span-Id, and the
    W3C traceparent. *)
Theorem Director_rewrites (tc : TraceCtx) (targetURL : URL) (route : Route) (r : Request) (n : string) :
  let out := Director tc targetURL route r r in
  Method out = Method r /\ URLPath out = URLPath r /\ RawQuery out = RawQuery r /\
  Scheme out = u_Scheme targetURL /\ URLHost out = u_Host targetURL /\ Host out = u_Host targetURL /\
  (n ∉ ["Traceparent"; "Tracestate"; "Baggage"; "X-Trace-Id"; "X-Span-Id"] ->
   Header out !! n =
    if (existsb (fun m => String.eqb (CanonicalMIMEHeaderKey m) n) (Headers route) &&
        negb (String.eqb (first_value (Header r !! n)) EmptyString))%bool
    then Some [first_value (Header r !! n)]
    else if String.eqb n "X-Forwarded-Host" then Some [Host r]
    else if String.eqb n "X-Forwarded-For" then Some [RemoteAddr r]
    else Header r !! n) /\
  (tc_valid tc = true ->
   Header out !! "X-Trace-Id" = Some [tc_trace_id tc] /\
   Header out !! "X-Span-Id" = Some [tc_span_id tc] /\
   Header out !! "Traceparent" =
     Some [String.append "00-" (String.append (tc_trace_id tc) (String.append "-"
             (String.append (tc_span_id tc) (String.append "-" (if tc_sampled tc then "01" else "00")))))]).
Proof.
  simpl. repeat split.
  - intros Hn.
    assert (Ht1 : n <> "Traceparent") by (intros ->; apply Hn; set_solver).
    assert (Ht2 : n <> "Tracestate") by (intros ->; apply Hn; set_solver).
    assert (Ht3 : n <> "Baggage") by (intros ->; apply Hn; set_solver).
    assert (Ht4 : n <> "X-Trace-Id") by (intros ->; apply Hn; set_solver).
    assert (Ht5 : n <> "X-Span-Id") by (intros ->; apply Hn; set_solver).
    assert (Hs : (if tc_valid tc
                  then HeaderSet (HeaderSet (Inject tc (copy_headers (Headers route) (Header r)
                         (HeaderSet (HeaderSet (Header r) "X-Forwarded-For" (RemoteAddr r))
                            "X-Forwarded-Host" (Host r)))) "X-Trace-ID" (tc_trace_id tc))
                         "X-Span-ID" (tc_span_id tc)
                  else Inject tc (copy_headers (Headers route) (Header r)
                         (HeaderSet (HeaderSet (Header r) "X-Forwarded-For" (RemoteAddr r))
                            "X-Forwarded-Host" (Host r)))) !! n
                 = Inject tc (copy_headers (Headers route) (Header r)
                         (HeaderSet (HeaderSet (Header r) "X-Forwarded-For" (RemoteAddr r))
                            "X-Forwarded-Host" (Host r))) !! n).
    { destruct (tc_valid tc); [|reflexivity].
      rewrite !HeaderSet_lookup_ne by (vm_compute; congruence). reflexivity. }
    rewrite Hs, Inject_lookup_other by assumption.
    rewrite copy_headers_lookup.
    destruct (_ && _)%bool; [reflexivity|].
    destruct (String.eqb_spec n "X-Forwarded-Host") as [->|H1];
      [apply (HeaderSet_lookup_eq _ "X-Forwarded-Host")|].
    rewrite HeaderSet_lookup_ne by (vm_compute; congruence).
    destruct (String.eqb_spec n "X-Forwarded-For") as [->|H2];
      [apply (HeaderSet_lookup_eq _ "X-Forwarded-For")|].
    rewrite HeaderSet_lookup_ne by (vm_compute; congruence). reflexivity.
  - rewrite H. rewrite HeaderSet_lookup_ne by (vm_compute; congruence).
    apply (HeaderSet_lookup_eq _ "X-Trace-ID").
  - rewrite H. apply (HeaderSet_lookup_eq _ "X-Span-ID").
  - rewrite H. rewrite !HeaderSet_lookup_ne by (vm_compute; congruence).
    unfold Inject, Baggage_Inject, TraceContext_Inject. rewrite H. cbn [negb].
    destruct (String.eqb (tc_baggage tc) EmptyString);
      [|rewrite HeaderSet_lookup_ne by (vm_compute; congruence)];
      apply (HeaderSet_lookup_eq _ "traceparent").
Qed.

Lemma collect_headers_lookup (names : list string) (h : HttpHeader) (n : string) :
  is_Some (collect_headers names h !! n) <->
  n ∈ names /\ HeaderGet h n <> EmptyString.
Proof.
  induction names as [|m names IH]; simpl.
  - rewrite lookup_empty. split; [intros [? ?]; discriminate | intros [Hn _]; apply not_elem_of_nil in Hn; contradiction].
  - rewrite elem_of_cons.
    destruct (String.eqb_spec (HeaderGet h m) EmptyString) as [E|E].
    + rewrite IH. split; [intros [? ?]; split; auto|].
      intros [[->|?] ?]; [contradiction|auto].
    + destruct (decide (n = m)) as [->|Hne].
      * rewrite lookup_insert_eq. split; [intros _; auto | intros _; eexists; reflexivity].
      * rewrite lookup_insert_ne by congruence. rewrite IH.
        split; [intros [? ?]; auto | intros [[?|?] ?]; [contradiction | auto]].
Qed.

(** ServeAPI hands a request to the proxy exactly when its path resolves to
    a route that is active, allows the request's method (case-sensitive
    string equality) and finds every required header with a non-empty
    value; the proxied route is the one resolved. *)
Theorem ServeAPI_proxies_iff (s : Service) (req : Request) (route : Route) :
  snd (ServeAPI s req) = Proxied route <->
  snd (GetRouteByPath s (URLPath req)) = Ok route /\ IsActive route = true /\
  IsMethodAllowed route (Method req) = true /\
  Forall (fun n => HeaderGet (Header req) n <> EmptyString) (RequiredHeaders route).
Proof.
  assert (Hhr : forall rt, HasRequiredHeaders rt (collect_headers (RequiredHeaders rt) (Header req)) = true <->
                           Forall (fun n => HeaderGet (Header req) n <> EmptyString) (RequiredHeaders rt)).
  { intros rt. unfold HasRequiredHeaders. rewrite forallb_forall, Forall_forall.
    split; intros H x Hx.
    - apply list_elem_of_In in Hx. specialize (H x Hx).
      apply bool_decide_eq_true, collect_headers_lookup in H. apply H.
    - specialize (H x (proj2 (list_elem_of_In _ _) Hx)).
      apply bool_decide_eq_true, collect_headers_lookup.
      split; [apply list_elem_of_In; exact Hx | exact H]. }
  unfold ServeAPI. destruct (GetRouteByPath s (URLPath req)) as [s' [rt|e]]; simpl.
  - destruct (IsActive rt) eqn:Ha; simpl.
    2:{ split; [discriminate | intros (H1 & H & _); injection H1 as <-; congruence]. }
    destruct (IsMethodAllowed rt (Method req)) eqn:Hm; simpl.
    2:{ split; [discriminate | intros (H1 & _ & H & _); injection H1 as <-; congruence]. }
    destruct (0 <? length (RequiredHeaders rt))%nat eqn:Hl.
    + destruct (HasRequiredHeaders rt _) eqn:Hh; simpl.
      * split; [intros [= <-]; repeat split; auto; apply Hhr; exact Hh|].
        intros (H1 & _); injection H1 as <-; reflexivity.
      * split; [discriminate|]. intros (H1 & _ & _ & Hf); injection H1 as <-.
        apply Hhr in Hf. congruence.
    + split; [intros [= <-]; repeat split; auto|].
      * destruct (RequiredHeaders rt); [constructor | discriminate].
      * intros (H1 & _); injection H1 as <-; reflexivity.
  - split; [discriminate | intros (H & _); discriminate].
Qed.

End DirectorMore.
